(** * Padel racket explorer: the filter / sort / summary engine

    A shallow embedding of [filter_and_sort_data] and of the summary
    metrics of [main] from [padel_app.py], together with the parts of
    pandas, numpy and [re] those functions call. *)

From Stdlib Require Import List ZArith QArith Bool Ascii String Lia Arith.
From Stdlib Require Import Permutation Sorted Qminmax Qround Finite.
Import ListNotations.

Set Implicit Arguments.

(** ** Text

    A Python [str] is a sequence of code points; the model keeps the code
    points below 256, one [ascii] each. *)

Module Text.

Definition code (c : ascii) : nat := nat_of_ascii c.

(** [str.lower] on one code point below 256: [A-Z] and the Latin-1
    capitals (0xC0-0xDE without the multiplication sign 0xD7) move up by
    32, everything else is unchanged. *)
Definition lower_char (c : ascii) : ascii :=
  let n := code c in
  if ((65 <=? n) && (n <=? 90))%nat then ascii_of_nat (n + 32)
  else if ((192 <=? n) && (n <=? 222) && negb (n =? 215))%nat
       then ascii_of_nat (n + 32)
       else c.

Fixpoint chars (s : string) : list ascii :=
  match s with
  | EmptyString => []
  | String c s' => c :: chars s'
  end.

Definition lower (s : string) : list ascii := map lower_char (chars s).

Definition char_eqb (a b : ascii) : bool := Ascii.eqb a b.

Fixpoint prefixb (p s : list ascii) : bool :=
  match p, s with
  | [], _ => true
  | _ :: _, [] => false
  | a :: p', b :: s' => char_eqb a b && prefixb p' s'
  end.

(** [needle in hay] for Python strings. *)
Fixpoint substringb (needle hay : list ascii) : bool :=
  prefixb needle hay ||
  match hay with
  | [] => false
  | _ :: hay' => substringb needle hay'
  end.

(** The case-insensitive substring test of the specification:
    [needle.lower() in hay.lower()]. *)
Definition ci_contains (hay needle : string) : bool :=
  substringb (lower needle) (lower hay).

(** [a < b] on Python strings: lexicographic on code points. *)
Fixpoint ltb_chars (a b : list ascii) : bool :=
  match a, b with
  | _, [] => false
  | [], _ :: _ => true
  | x :: a', y :: b' =>
      if (code x <? code y)%nat then true
      else if (code y <? code x)%nat then false
      else ltb_chars a' b'
  end.

Definition ltb (a b : string) : bool := ltb_chars (chars a) (chars b).

End Text.

(** ** Regular expressions: the fragment of [re] syntax the model covers

    [Series.str.contains(pat, case=False, na=False)] keeps its default
    [regex=True]: the pattern is compiled by [re.compile(pat, re.IGNORECASE)]
    and each name is tested with [pattern.search]. *)

Module Re.

Inductive regex : Type :=
| Empty                      (* matches nothing *)
| Eps                        (* matches the empty string *)
| Lit (c : ascii)            (* a literal, compared modulo case *)
| Dot                        (* [.]: any character but a newline *)
| Cat (r1 r2 : regex)
| Alt (r1 r2 : regex)
| Star (r : regex).

(** What [re.compile] does with a pattern. *)
Inductive compiled : Type :=
| Compiled (r : regex)
| ReError                    (* [re.error] is raised *)
| OutOfFragment.             (* syntax this model does not interpret *)

Definition newline : ascii := ascii_of_nat 10.

Definition is_alnum (c : ascii) : bool :=
  let n := Text.code c in
  (((48 <=? n) && (n <=? 57)) || ((65 <=? n) && (n <=? 90))
   || ((97 <=? n) && (n <=? 122)))%nat.

(** Intermediate result of the recursive-descent parser: the regex read
    so far and the rest of the input. *)
Inductive presult : Type :=
| POk (r : regex) (rest : list ascii)
| PError
| PUnsupported.

(** A repetition sign after an atom.  A second sign right after the first
    ([a*?], [a*+], [a**], [a*{]) is lazy, possessive or an error depending
    on the sign and the Python version: left uninterpreted. *)
Definition parse_repeat (atom : regex) (rest : list ascii) : presult :=
  match rest with
  | c :: rest' =>
      let rep (r : regex) :=
        match rest' with
        | d :: _ =>
            if existsb (Ascii.eqb d) ["*"; "+"; "?"; "{"]%char
            then PUnsupported else POk r rest'
        | [] => POk r rest'
        end in
      if Ascii.eqb c "*" then rep (Star atom)
      else if Ascii.eqb c "+" then rep (Cat atom (Star atom))
      else if Ascii.eqb c "?" then rep (Alt Eps atom)
      else if Ascii.eqb c "{" then PUnsupported
      else POk atom rest
  | [] => POk atom rest
  end.

(** [_parse] of [re._parser]: a sequence of repeated atoms, read until
    [|], [)] or the end of the pattern.  [sub] reads the inside of a
    group. *)
Fixpoint parse_seq (sub : list ascii -> presult) (n : nat) (acc : regex)
    (s : list ascii) : presult :=
  match n with
  | O => PUnsupported
  | S n' =>
      match s with
      | [] => POk acc s
      | c :: s' =>
          if Ascii.eqb c "|" || Ascii.eqb c ")" then POk acc s
          else if existsb (Ascii.eqb c) ["*"; "+"; "?"]%char
          then PError                       (* nothing to repeat *)
          else if existsb (Ascii.eqb c) ["{"; "}"; "["; "]"; "^"; "$"]%char
          then PUnsupported
          else
            let continue (atom : regex) (rest : list ascii) :=
              match parse_repeat atom rest with
              | POk r rest' => parse_seq sub n' (Cat acc r) rest'
              | e => e
              end in
            if Ascii.eqb c "." then continue Dot s'
            else if Ascii.eqb c "\" then
              match s' with
              | [] => PError                (* bad escape (end of pattern) *)
              | d :: s'' =>
                  if is_alnum d then PUnsupported
                  else continue (Lit d) s''
              end
            else if Ascii.eqb c "(" then
              match s' with
              | "?"%char :: _ => PUnsupported
              | _ =>
                  match sub s' with
                  | POk r (")"%char :: rest) => continue r rest
                  | POk _ _ => PError       (* missing ) *)
                  | e => e
                  end
              end
            else continue (Lit c) s'
      end
  end.

(** [_parse_sub] of [re._parser]: alternatives separated by [|]. *)
Fixpoint parse_alt (fuel : nat) (s : list ascii) : presult :=
  match fuel with
  | O => PUnsupported
  | S fuel' =>
      match parse_seq (parse_alt fuel') fuel' Eps s with
      | POk r ("|"%char :: rest) =>
          match parse_alt fuel' rest with
          | POk r' rest' => POk (Alt r r') rest'
          | e => e
          end
      | res => res
      end
  end.

(** [re.compile(pat, re.IGNORECASE)]. *)
Definition compile (pat : string) : compiled :=
  let s := Text.chars pat in
  match parse_alt (S (S (List.length s))) s with
  | POk r [] => Compiled r
  | POk _ _ => ReError                            (* unbalanced parenthesis *)
  | PError => ReError
  | PUnsupported => OutOfFragment
  end.

(** Matching by derivatives. *)
Fixpoint nullable (r : regex) : bool :=
  match r with
  | Empty => false
  | Eps => true
  | Lit _ => false
  | Dot => false
  | Cat r1 r2 => nullable r1 && nullable r2
  | Alt r1 r2 => nullable r1 || nullable r2
  | Star _ => true
  end.

Fixpoint deriv (c : ascii) (r : regex) : regex :=
  match r with
  | Empty => Empty
  | Eps => Empty
  | Lit d => if Ascii.eqb (Text.lower_char c) (Text.lower_char d)
             then Eps else Empty
  | Dot => if Ascii.eqb c newline then Empty else Eps
  | Cat r1 r2 =>
      if nullable r1 then Alt (Cat (deriv c r1) r2) (deriv c r2)
      else Cat (deriv c r1) r2
  | Alt r1 r2 => Alt (deriv c r1) (deriv c r2)
  | Star r' => Cat (deriv c r') (Star r')
  end.

(** [pattern.match(s)]: some prefix of [s] is in the language. *)
Fixpoint match_prefix (r : regex) (s : list ascii) : bool :=
  nullable r ||
  match s with
  | [] => false
  | c :: s' => match_prefix (deriv c r) s'
  end.

(** [pattern.search(s) is not None]: a match starts somewhere in [s]. *)
Fixpoint search (r : regex) (s : list ascii) : bool :=
  match_prefix r s ||
  match s with
  | [] => false
  | _ :: s' => search r s'
  end.

(** The language of a regex: the strings it matches as a whole. *)
Inductive matches : regex -> list ascii -> Prop :=
| MEps : matches Eps []
| MLit c d : Text.lower_char d = Text.lower_char c -> matches (Lit c) [d]
| MDot d : d <> newline -> matches Dot [d]
| MCat r1 r2 s1 s2 :
    matches r1 s1 -> matches r2 s2 -> matches (Cat r1 r2) (s1 ++ s2)
| MAltL r1 r2 s : matches r1 s -> matches (Alt r1 r2) s
| MAltR r1 r2 s : matches r2 s -> matches (Alt r1 r2) s
| MStar0 r : matches (Star r) []
| MStarS r s1 s2 :
    matches r s1 -> matches (Star r) s2 -> matches (Star r) (s1 ++ s2).

(** The regex a pattern free of special characters compiles to. *)
Fixpoint literal (acc : regex) (s : list ascii) : regex :=
  match s with
  | [] => acc
  | c :: s' => literal (Cat acc (Lit c)) s'
  end.

Definition special (c : ascii) : bool :=
  existsb (Ascii.eqb c)
    ["."; "^"; "$"; "*"; "+"; "?"; "{"; "}"; "["; "]"; "\"; "|"; "("; ")"]%char.

End Re.

(** ** Data model *)

(** One row of [padel_data.csv].  The ratings are integer columns; [price]
    is a float column in which NaN marks a missing price ([None] here, a
    present price being the rational it denotes); a missing [name] is NaN
    in an object column. *)
Record racket : Type := mkRacket {
  name : option string;
  overall : Z;
  price : option Q;
  power : Z;
  control : Z;
  rebound : Z;
  omgang : Z;
  sweetspot : Z
}.

(** A DataFrame: its rows in order, each with its index label.  Boolean
    indexing and sorting keep the label with the row. *)
Definition frame : Type := list (nat * racket).

(** The Table as [pd.read_csv] returns it: labels [0 .. n-1]. *)
Definition read_table (rows : list racket) : frame :=
  combine (seq 0 (List.length rows)) rows.

(** The [filters] dictionary built by [main]. *)
Record filters : Type := mkFilters {
  name_search : string;
  overall_range : Z * Z;
  price_range : option (Q * Q);
  include_no_price : bool;
  power_range : Z * Z;
  control_range : Z * Z;
  rebound_range : Z * Z;
  omgang_range : Z * Z;
  sweetspot_range : Z * Z
}.

(** The options of the "Sort by" select box and of the "Order" radio. *)
Inductive column : Type :=
| c_overall | c_price | c_power | c_control | c_rebound | c_omgang
| c_sweetspot | c_name.

Inductive order : Type := asc | desc.

Inductive exn : Type :=
| re_error          (* [re.error]: the search text is not a valid pattern *)
| AttributeError.   (* [.str] on a column that holds no strings *)

Inductive result (A : Type) : Type :=
| Ok (a : A)
| Raised (e : exn)
| Unmodelled.       (* outside what the model interprets *)

Arguments Ok {A} a.
Arguments Raised {A} e.
Arguments Unmodelled {A}.

Definition is_some {A} (o : option A) : bool :=
  match o with Some _ => true | None => false end.

(** ** pandas operations *)

(** [df[mask]]: the rows whose mask entry is True. *)
Fixpoint getitem (df : frame) (mask : list bool) : frame :=
  match df, mask with
  | x :: df', b :: mask' =>
      if b then x :: getitem df' mask' else getitem df' mask'
  | _, _ => []
  end.

(** [(col >= lo) & (col <= hi)] on an integer column. *)
Definition between (lo hi v : Z) : bool := ((lo <=? v) && (v <=? hi))%Z.

(** The same on the price column: a comparison with NaN is False. *)
Definition price_between (lo hi : Q) (p : option Q) : bool :=
  match p with
  | Some v => Qle_bool lo v && Qle_bool v hi
  | None => false
  end.

(** [pd.isna] on a price cell. *)
Definition isna {A} (p : option A) : bool := negb (is_some p).

(** The [price_mask] of lines 142-145, for one row. *)
Definition price_mask (lo hi : Q) (include : bool) (p : option Q) : bool :=
  price_between lo hi p || (include && isna p).

(** The dtype of the [name] column as [read_csv] infers it: object when
    the table is empty or some name is a string, float64 (all NaN)
    otherwise.  Boolean indexing keeps the dtype, so it is decided by the
    table the query started from.  [.str] needs an object column. *)
Definition name_is_text (table : frame) : bool :=
  match table with
  | [] => true
  | _ => existsb (fun x => is_some (name (snd x))) table
  end.

(** [col.str.contains(pat, case=False, na=False)]. *)
Definition str_contains (text_dtype : bool) (col : list (option string))
    (pat : string) : result (list bool) :=
  if text_dtype then
    match Re.compile pat with
    | Re.Compiled r =>
        Ok (map (fun n => match n with
                          | Some s => Re.search r (Text.chars s)
                          | None => false
                          end) col)
    | Re.ReError => Raised re_error
    | Re.OutOfFragment => Unmodelled
    end
  else Raised AttributeError.

(** *** Sorting

    [sort_values] is called without [kind], so numpy sorts with its
    default [kind='quicksort'].  What that guarantees is that the returned
    indices are a permutation that puts the keys in order; where equal
    keys end up is up to the implementation.  A [sorter] is any function
    with that contract. *)

Definition strict_weak {K} (lt : K -> K -> bool) : Prop :=
  (forall x, lt x x = false) /\
  (forall x y z, lt x y = true -> lt y z = true -> lt x z = true) /\
  (forall x y z, lt x y = false -> lt y z = false -> lt x z = false).

(** The keys [l], visited in the order [idx], never go down. *)
Definition in_order {K} (lt : K -> K -> bool) (d : K) (l : list K)
    (idx : list nat) : Prop :=
  StronglySorted (fun i j => lt (nth j l d) (nth i l d) = false) idx.

Record sorter : Type := mkSorter {
  argsort : forall K : Type, (K -> K -> bool) -> list K -> list nat;
  argsort_perm : forall K (lt : K -> K -> bool) (l : list K),
      Permutation (argsort lt l) (seq 0 (List.length l));
  argsort_sorted : forall K (lt : K -> K -> bool) (d : K) (l : list K),
      strict_weak lt -> in_order lt d l (argsort lt l)
}.

(** Positions and values of the cells that are not NaN. *)
Fixpoint non_nan {K} (start : nat) (items : list (option K)) : list (nat * K) :=
  match items with
  | [] => []
  | Some k :: items' => (start, k) :: non_nan (S start) items'
  | None :: items' => non_nan (S start) items'
  end.

(** [np.nonzero(mask)[0]]: positions of the NaN cells. *)
Fixpoint nan_idx {K} (start : nat) (items : list (option K)) : list nat :=
  match items with
  | [] => []
  | Some _ :: items' => nan_idx (S start) items'
  | None :: items' => start :: nan_idx (S start) items'
  end.

(** [pandas.core.sorting.nargsort] with [na_position='last']: the NaN
    cells are set aside, the others are sorted (reversed before and after
    for a descending sort), and the NaN positions are appended. *)
Definition nargsort (S : sorter) {K} (lt : K -> K -> bool)
    (items : list (option K)) (ascending : bool) : list nat :=
  let nn := non_nan 0 items in
  let nn := if ascending then nn else rev nn in
  let non_nans := map snd nn in
  let non_nan_idx := map fst nn in
  let indexer := map (fun i => nth i non_nan_idx 0%nat) (argsort S lt non_nans) in
  let indexer := if ascending then indexer else rev indexer in
  indexer ++ nan_idx 0 items.

(** [df.take(indexer)]. *)
Definition take (df : frame) (indexer : list nat) : frame :=
  flat_map (fun i => match nth_error df i with
                     | Some x => [x]
                     | None => []
                     end) indexer.

Definition Qltb (a b : Q) : bool := negb (Qle_bool b a).

(** Sorting by an integer column: no cell is NaN. *)
Definition sort_by_rating (S : sorter) (df : frame) (attr : racket -> Z)
    (ascending : bool) : list nat :=
  nargsort S Z.ltb (map (fun x => Some (attr (snd x))) df) ascending.

(** The indexer [sort_values(by, ascending, na_position='last')] computes:
    line 169/171 passes [na_position='last'] for the price, line 174
    leaves it at its default, which is ['last'] too. *)
Definition sort_indexer (S : sorter) (df : frame) (by_ : column)
    (ascending : bool) : list nat :=
  match by_ with
  | c_price => nargsort S Qltb (map (fun x => price (snd x)) df) ascending
  | c_name => nargsort S Text.ltb (map (fun x => name (snd x)) df) ascending
  | c_overall => sort_by_rating S df overall ascending
  | c_power => sort_by_rating S df power ascending
  | c_control => sort_by_rating S df control ascending
  | c_rebound => sort_by_rating S df rebound ascending
  | c_omgang => sort_by_rating S df omgang ascending
  | c_sweetspot => sort_by_rating S df sweetspot ascending
  end.

Definition sort_values (S : sorter) (df : frame) (by_ : column)
    (ascending : bool) : frame :=
  take df (sort_indexer S df by_ ascending).

(** ** [filter_and_sort_data] *)

(** Lines 134-138 and 151-157: one range filter on a rating column,
    skipped when the two ends of the range are equal. *)
Definition range_filter (attr : racket -> Z) (rg : Z * Z) (df : frame) : frame :=
  if negb (fst rg =? snd rg)%Z
  then getitem df (map (fun x => between (fst rg) (snd rg) (attr (snd x))) df)
  else df.

(** Lines 140-148. *)
Definition price_filter (f : filters) (df : frame) : frame :=
  match price_range f with
  | Some (lo, hi) =>
      if negb (Qeq_bool lo hi)
      then getitem df (map (fun x => price_mask lo hi (include_no_price f)
                                       (price (snd x))) df)
      else if negb (include_no_price f)
           then getitem df (map (fun x => negb (isna (price (snd x)))) df)
           else df
  | None =>
      if negb (include_no_price f)
      then getitem df (map (fun x => negb (isna (price (snd x)))) df)
      else df
  end.

(** Lines 151-157: the loop over the five attribute columns. *)
Definition attribute_filters (f : filters) (df : frame) : frame :=
  fold_left (fun acc (a : (racket -> Z) * (filters -> Z * Z)) =>
               range_filter (fst a) (snd a f) acc)
    [(power, power_range); (control, control_range); (rebound, rebound_range);
     (omgang, omgang_range); (sweetspot, sweetspot_range)] df.

(** Lines 160-163. *)
Definition name_filter (text_dtype : bool) (f : filters) (df : frame)
    : result frame :=
  match name_search f with
  | EmptyString => Ok df
  | pat =>
      match str_contains text_dtype (map (fun x => name (snd x)) df) pat with
      | Ok mask => Ok (getitem df mask)
      | Raised e => Raised e
      | Unmodelled => Unmodelled
      end
  end.

(** Lines 131-163: everything before the sort. *)
Definition apply_filters (df : frame) (f : filters) : result frame :=
  let filtered_df := df in
  let filtered_df := range_filter overall (overall_range f) filtered_df in
  let filtered_df := price_filter f filtered_df in
  let filtered_df := attribute_filters f filtered_df in
  name_filter (name_is_text df) f filtered_df.

Definition is_asc (o : order) : bool :=
  match o with asc => true | desc => false end.

(** Lines 129-176. *)
Definition filter_and_sort_data (S : sorter) (df : frame) (f : filters)
    (sort_by : column) (sort_order : order) : result frame :=
  match apply_filters df f with
  | Ok filtered_df => Ok (sort_values S filtered_df sort_by (is_asc sort_order))
  | Raised e => Raised e
  | Unmodelled => Unmodelled
  end.

(** ** The same function over the object store

    In Python [df] and [filtered_df] are references.  [df.copy()], boolean
    indexing and [sort_values] (without [inplace=True]) each build a new
    DataFrame object and the name [filtered_df] is rebound to it; no
    statement of the function writes to an existing object. *)

Module Store.

Definition loc : Type := nat.

(** The DataFrame objects, by address. *)
Definition heap : Type := list frame.

(** A computation reads and extends the heap and returns, raises, or
    leaves the model; the heap survives an exception. *)
Definition M (A : Type) : Type := heap -> result A * heap.

Definition ret {A} (a : A) : M A := fun h => (Ok a, h).

Definition bind {A B} (m : M A) (k : A -> M B) : M B :=
  fun h =>
    match m h with
    | (Ok a, h') => k a h'
    | (Raised e, h') => (Raised e, h')
    | (Unmodelled, h') => (Unmodelled, h')
    end.

Definition lift {A} (r : result A) : M A := fun h => (r, h).

Notation "x <- m ;; k" := (bind m (fun x => k))
  (at level 61, m at next level, right associativity).

(** A new object, at the next free address. *)
Definition alloc (fr : frame) : M loc :=
  fun h => (Ok (List.length h), h ++ [fr]).

(** Reading through a reference; a reference to no object does not occur
    in Python and leaves the model. *)
Definition load (l : loc) : M frame :=
  fun h =>
    match nth_error h l with
    | Some fr => (Ok fr, h)
    | None => (Unmodelled, h)
    end.

(** [df.copy()]. *)
Definition copy (l : loc) : M loc :=
  fr <- load l ;; alloc fr.

(** [df[mask]], the mask being computed from the frame itself. *)
Definition getitem_by (l : loc) (mask : frame -> list bool) : M loc :=
  fr <- load l ;; alloc (getitem fr (mask fr)).

(** [df.sort_values(by, ascending=..., na_position='last')]. *)
Definition sort_values_new (S : sorter) (l : loc) (by_ : column)
    (ascending : bool) : M loc :=
  fr <- load l ;; alloc (sort_values S fr by_ ascending).

Definition range_filter_m (attr : racket -> Z) (rg : Z * Z) (l : loc) : M loc :=
  if negb (fst rg =? snd rg)%Z
  then getitem_by l (map (fun x => between (fst rg) (snd rg) (attr (snd x))))
  else ret l.

Definition price_filter_m (f : filters) (l : loc) : M loc :=
  match price_range f with
  | Some (lo, hi) =>
      if negb (Qeq_bool lo hi)
      then getitem_by l (map (fun x => price_mask lo hi (include_no_price f)
                                         (price (snd x))))
      else if negb (include_no_price f)
           then getitem_by l (map (fun x => negb (isna (price (snd x)))))
           else ret l
  | None =>
      if negb (include_no_price f)
      then getitem_by l (map (fun x => negb (isna (price (snd x)))))
      else ret l
  end.

Fixpoint attribute_filters_m (f : filters)
    (attrs : list ((racket -> Z) * (filters -> Z * Z))) (l : loc) : M loc :=
  match attrs with
  | [] => ret l
  | a :: attrs' =>
      l' <- range_filter_m (fst a) (snd a f) l ;;
      attribute_filters_m f attrs' l'
  end.

Definition name_filter_m (text_dtype : bool) (f : filters) (l : loc) : M loc :=
  match name_search f with
  | EmptyString => ret l
  | pat =>
      fr <- load l ;;
      mask <- lift (str_contains text_dtype (map (fun x => name (snd x)) fr) pat) ;;
      alloc (getitem fr mask)
  end.

(** Lines 129-176, [df] being the address of the Table. *)
Definition filter_and_sort_data (S : sorter) (df : loc) (f : filters)
    (sort_by : column) (sort_order : order) : M loc :=
  table <- load df ;;
  filtered_df <- copy df ;;
  filtered_df <- range_filter_m overall (overall_range f) filtered_df ;;
  filtered_df <- price_filter_m f filtered_df ;;
  filtered_df <- attribute_filters_m f
      [(power, power_range); (control, control_range);
       (rebound, rebound_range); (omgang, omgang_range);
       (sweetspot, sweetspot_range)] filtered_df ;;
  filtered_df <- name_filter_m (name_is_text table) f filtered_df ;;
  sort_values_new S filtered_df sort_by (is_asc sort_order).

End Store.

(** ** Summary metrics of [main] *)

(** What the fourth metric column shows.  [F] is the type of the float64
    values that are not NaN. *)
Inductive avg_metric (F : Type) : Type :=
| AvgValue (avg_price : F)   (* [st.metric("Avg Price", f"€{avg_price:.0f}")] *)
| AvgNA.                     (* [st.metric("Avg Price", "N/A")] *)

Arguments AvgValue {F} avg_price.
Arguments AvgNA {F}.

Definition present_prices (df : frame) : list Q :=
  flat_map (fun x => match price (snd x) with
                     | Some p => [p]
                     | None => []
                     end) df.

Definition Qsum (l : list Q) : Q := fold_right Qplus 0 l.

(** [filtered_df['price'].mean()].  [Series.mean()] skips NaN: it is NaN
    ([None]) when the column holds no price, and otherwise the float64
    that pandas computes for the column, the sum of the present prices
    divided by their number, both in floating-point arithmetic.  That
    value depends on the rounding of every addition and on the order of
    the additions; the model does not interpret it: [series_mean] is a
    parameter.  Prices being finite, it is not NaN. *)
Definition mean {F} (series_mean : list (option Q) -> F) (df : frame)
    : option F :=
  match present_prices df with
  | [] => None
  | _ => Some (series_mean (map (fun x => price (snd x)) df))
  end.

(** The mean of the present prices in exact arithmetic: what the float64
    of [Series.mean()] comes to when no operation rounds. *)
Definition rational_mean (col : list (option Q)) : Q :=
  let ps := flat_map (fun p => match p with
                               | Some v => [v]
                               | None => []
                               end) col in
  Qsum ps / inject_Z (Z.of_nat (List.length ps)).

(** Lines 285-287. *)
Definition shown_rackets (df : frame) : nat := List.length df.

Definition rackets_with_price (df : frame) : nat :=
  List.length (getitem df (map (fun x => negb (isna (price (snd x)))) df)).

Definition rackets_without_price (df : frame) : nat :=
  List.length (getitem df (map (fun x => isna (price (snd x))) df)).

(** Lines 296-302: the metric rendered in [col4], if any. *)
Definition avg_price_metric {F} (series_mean : list (option Q) -> F)
    (filtered_df : frame) : option (avg_metric F) :=
  if (0 <? shown_rackets filtered_df)%nat then
    match mean series_mean filtered_df with
    | Some avg_price => Some (AvgValue avg_price)
    | None => Some AvgNA
    end
  else None.

(** Slider defaults of [main]: the observed bounds of a rating column. *)
Definition observed_bounds (vals : list Z) : option (Z * Z) :=
  match vals with
  | [] => None
  | v :: vs => Some (fold_left Z.min vs v, fold_left Z.max vs v)
  end.

(** The observed bounds of the present prices; [None] stands for
    [price_range = None] when no price is present.  ([main] cuts the two
    bounds down to integers before it hands them to the slider.) *)
Definition observed_price_bounds (df : frame) : option (Q * Q) :=
  match present_prices df with
  | [] => None
  | p :: ps => Some (fold_left Qmin ps p, fold_left Qmax ps p)
  end.

(** ** Properties of the specification, as hypotheses on the filters *)

(** A rating range left at the slider default. *)
Definition at_full_bounds (vals : list Z) (rg : Z * Z) : Prop :=
  match observed_bounds vals with
  | Some b => rg = b
  | None => True
  end.

(** The price range left at the full bounds of the present prices, or not
    supplied when there is no present price. *)
Definition price_at_full_bounds (df : frame) (rg : option (Q * Q)) : Prop :=
  match observed_price_bounds df, rg with
  | Some (lo, hi), Some (lo', hi') => lo' == lo /\ hi' == hi
  | None, None => True
  | _, _ => False
  end.

(** Every range at its full bounds, missing prices included, no search. *)
Record no_op_filters (df : frame) (f : filters) : Prop := {
  no_op_overall : at_full_bounds (map (fun x => overall (snd x)) df) (overall_range f);
  no_op_price : price_at_full_bounds df (price_range f);
  no_op_include : include_no_price f = true;
  no_op_power : at_full_bounds (map (fun x => power (snd x)) df) (power_range f);
  no_op_control : at_full_bounds (map (fun x => control (snd x)) df) (control_range f);
  no_op_rebound : at_full_bounds (map (fun x => rebound (snd x)) df) (rebound_range f);
  no_op_omgang : at_full_bounds (map (fun x => omgang (snd x)) df) (omgang_range f);
  no_op_sweetspot : at_full_bounds (map (fun x => sweetspot (snd x)) df) (sweetspot_range f);
  no_op_search : name_search f = EmptyString
}.

(** ** Notions used to state the properties *)

(** *** Sort keys *)

(** [pd.isna] on the sort key of a record. *)
Definition missing (by_ : column) (r : racket) : bool :=
  match by_ with
  | c_price => isna (price r)
  | c_name => isna (name r)
  | _ => false
  end.

(** [key(r1) < key(r2)] for two records that both have the key. *)
Definition key_lt (by_ : column) (r1 r2 : racket) : bool :=
  match by_ with
  | c_price =>
      match price r1, price r2 with
      | Some a, Some b => Qltb a b
      | _, _ => false
      end
  | c_name =>
      match name r1, name r2 with
      | Some a, Some b => Text.ltb a b
      | _, _ => false
      end
  | c_overall => (overall r1 <? overall r2)%Z
  | c_power => (power r1 <? power r2)%Z
  | c_control => (control r1 <? control r2)%Z
  | c_rebound => (rebound r1 <? rebound r2)%Z
  | c_omgang => (omgang r1 <? omgang r2)%Z
  | c_sweetspot => (sweetspot r1 <? sweetspot r2)%Z
  end.

(** The keys never go against the direction of the sort. *)
Definition ordered_by (by_ : column) (ascending : bool) (x y : nat * racket) : Prop :=
  (if ascending then key_lt by_ (snd y) (snd x)
   else key_lt by_ (snd x) (snd y)) = false.

(** The entries of [non_nan]: a position and the key found there. *)
Definition at_key {K} (items : list (option K)) (s : nat) (e : nat * K)
    : Prop :=
  (s <= fst e)%nat /\ nth_error items (fst e - s) = Some (Some (snd e)).

(** The sorted part of the indexer: what [nargsort] computes before it
    appends the NaN positions. *)
Definition sorted_idx (S : sorter) {K} (lt : K -> K -> bool)
    (items : list (option K)) (ascending : bool) : list nat :=
  let nn := if ascending then non_nan 0 items else rev (non_nan 0 items) in
  let indexer :=
    map (fun i => nth i (map fst nn) 0%nat) (argsort S lt (map snd nn)) in
  if ascending then indexer else rev indexer.

(** A row to read at a position that is not in the frame. *)
Definition no_row : nat * racket :=
  (0%nat, mkRacket None 0 None 0 0 0 0 0).

(** *** Selections *)

(** [df'] holds some of the rows of [df], in the order of [df]. *)
Definition selection (df' df : frame) : Prop :=
  exists p : nat * racket -> bool, df' = filter p df.

(** Index labels go up along the frame, as in a Table just read. *)
Definition labels_increasing (df : frame) : Prop :=
  StronglySorted (fun x y => (fst x < fst y)%nat) df.

(** *** The store *)

(** Running [m] from an address that holds [fr] returns an address that
    holds [pure fr]; the heap is extended, not changed; the address
    returned is the one given or a new one. *)
Definition runs_to (m : Store.loc -> Store.M Store.loc) (pure : frame -> frame)
    : Prop :=
  forall (h : Store.heap) (l : Store.loc) (fr : frame),
    nth_error h l = Some fr ->
    exists (ext : Store.heap) (l' : Store.loc),
      m l h = (Ok l', h ++ ext) /\
      nth_error (h ++ ext) l' = Some (pure fr) /\
      (l' = l \/ (List.length h <= l')%nat).

(** *** The scenario of the specification and sample inputs *)

(** The slider default of a rating column, for a Table that has rows. *)
Definition full_range (vals : list Z) : Z * Z :=
  match observed_bounds vals with
  | Some b => b
  | None => (0, 0)%Z
  end.

(** A record of the scenario: the name, the overall rating and the price
    are given, the five attribute ratings are those of [r]. *)
Definition scenario_row (nm : string) (ov : Z) (pr : option Q) (r : racket)
    : racket :=
  mkRacket (Some nm) ov pr (power r) (control r) (rebound r) (omgang r)
    (sweetspot r).

Definition scenario_table (a b c : racket) : list racket :=
  [scenario_row "A" 8 (Some (100 # 1)) a;
   scenario_row "B" 6 None b;
   scenario_row "C" 8 (Some (50 # 1)) c].

(** Overall range [8, 8], no price range, missing prices included, the
    attribute ranges at their full bounds, no search text. *)
Definition scenario_filters (rows : list racket) : filters :=
  mkFilters EmptyString (8, 8)%Z None true
    (full_range (map power rows)) (full_range (map control rows))
    (full_range (map rebound rows)) (full_range (map omgang rows))
    (full_range (map sweetspot rows)).

(** The rows of the scenario with attribute ratings filled in. *)
Definition sample_a : racket := mkRacket None 0 None 5 6 7 8 9.
Definition sample_b : racket := mkRacket None 0 None 6 6 5 7 9.
Definition sample_c : racket := mkRacket None 0 None 7 4 6 8 8.
Definition sample_rows : list racket := scenario_table sample_a sample_b sample_c.
Definition sample_table : frame := read_table sample_rows.

(** The same filters with a search text typed in. *)
Definition with_search (pat : string) (f : filters) : filters :=
  mkFilters pat (overall_range f) (price_range f) (include_no_price f)
    (power_range f) (control_range f) (rebound_range f) (omgang_range f)
    (sweetspot_range f).

(** *** Stability, as the specification words it *)

(** Two records with the same sort key: both missing, or both present and
    neither below the other. *)
Definition same_key (by_ : column) (r1 r2 : racket) : Prop :=
  missing by_ r1 = missing by_ r2 /\
  key_lt by_ r1 r2 = false /\ key_lt by_ r2 r1 = false.

(** Records with the same sort key stand in the result in the order of
    their Table positions. *)
Definition stable_result (by_ : column) (res : frame) : Prop :=
  forall i j x y,
    (i < j)%nat -> nth_error res i = Some x -> nth_error res j = Some y ->
    same_key by_ (snd x) (snd y) -> (fst x < fst y)%nat.

(** Eighteen records with the same overall rating. *)
Definition eighteen_rows : list racket :=
  repeat (scenario_row "A" 8 (Some (100 # 1)) sample_a) 18.

(** Filters at their defaults on the sample table: every range at its
    full bounds, the price range included. *)
Definition default_filters : filters :=
  mkFilters EmptyString (6, 8)%Z (Some (50 # 1, 100 # 1)) true
    (5, 7)%Z (4, 6)%Z (5, 7)%Z (7, 8)%Z (8, 9)%Z.

(** A narrowed price range, and the same without the missing prices. *)
Definition price_60_100 : filters :=
  mkFilters EmptyString (6, 8)%Z (Some (60 # 1, 100 # 1)) true
    (5, 7)%Z (4, 6)%Z (5, 7)%Z (7, 8)%Z (8, 9)%Z.

Definition price_70_70_present : filters :=
  mkFilters EmptyString (6, 8)%Z (Some (70 # 1, 70 # 1)) false
    (5, 7)%Z (4, 6)%Z (5, 7)%Z (7, 8)%Z (8, 9)%Z.

(** *** Search texts without special characters *)

Definition plain (c : ascii) : bool := negb (Re.special c).


(** ** The rest of [main] *)

(** [int(x)] on a float: the fraction is cut off, toward zero. *)
Definition int_of_float (q : Q) : Z :=
  if Qle_bool 0 q then Qfloor q else Qceiling q.

(** Lines 207-216: the value the price slider starts with, [None] when
    no price is present. *)
Definition price_slider_default (df : frame) : option (Q * Q) :=
  match observed_price_bounds df with
  | Some (lo, hi) =>
      Some (inject_Z (int_of_float lo), inject_Z (int_of_float hi))
  | None => None
  end.

(** [st.slider(label, min_value, max_value, value=(min_value, max_value))]
    left untouched returns its [value]; it raises when the two bounds are
    equal ([None]). *)
Definition slider (bounds : Z * Z) : option (Z * Z) :=
  if (fst bounds <? snd bounds)%Z then Some bounds else None.

(** The slider of a rating column.  On a Table without rows the minimum
    of the column is NaN and [int] raises ValueError: [None]. *)
Definition rating_slider (vals : list Z) : option (Z * Z) :=
  match observed_bounds vals with
  | Some b => slider b
  | None => None
  end.

(** Lines 207-216: the price slider, or [price_range = None] when no
    price is present. *)
Definition price_slider (df : frame) : option (option (Q * Q)) :=
  match observed_price_bounds df with
  | Some (lo, hi) =>
      match slider (int_of_float lo, int_of_float hi) with
      | Some _ => Some (price_slider_default df)
      | None => None
      end
  | None => Some None
  end.

(** Lines 196-277: the [filters] dictionary when every widget returns the
    value it starts with: an empty search text, each slider at the
    integer bounds of its column, the check box ticked.  [None] when a
    widget raises and [main] stops there. *)
Definition untouched_filters (df : frame) : option filters :=
  match rating_slider (map (fun x => overall (snd x)) df),
        price_slider df,
        rating_slider (map (fun x => power (snd x)) df),
        rating_slider (map (fun x => control (snd x)) df),
        rating_slider (map (fun x => rebound (snd x)) df),
        rating_slider (map (fun x => omgang (snd x)) df),
        rating_slider (map (fun x => sweetspot (snd x)) df) with
  | Some ov, Some pr, Some po, Some co, Some re, Some om, Some sw =>
      Some (mkFilters EmptyString ov pr true po co re om sw)
  | _, _, _, _, _, _, _ => None
  end.

(** Lines 257-262 and 280: the select box starts at ['overall'], the
    radio at ["desc"]. *)
Definition untouched_view (S : sorter) (df : frame) : option (result frame) :=
  match untouched_filters df with
  | Some f => Some (filter_and_sort_data S df f c_overall desc)
  | None => None
  end.

(** Lines 305-322: the card grid.  A card is the row and the column it
    is put in and the record [filtered_df.iloc[racket_idx]]. *)
Definition cols_per_row : nat := 3.

Definition grid_rows (n : nat) : nat := (n + cols_per_row - 1) / cols_per_row.

Definition grid_cards (filtered_df : frame) : list (nat * nat * (nat * racket)) :=
  flat_map
    (fun row =>
       flat_map
         (fun col_idx =>
            let racket_idx := (row * cols_per_row + col_idx)%nat in
            if (racket_idx <? List.length filtered_df)%nat then
              match nth_error filtered_df racket_idx with
              | Some racket => [(row, col_idx, racket)]
              | None => []
              end
            else [])
         (seq 0 cols_per_row))
    (seq 0 (grid_rows (List.length filtered_df))).

Inductive results_display : Type :=
| NoMatchWarning      (* [st.warning("No rackets match ...")] *)
| RacketGrid (cards : list (nat * nat * (nat * racket))).

Definition display_results (filtered_df : frame) : results_display :=
  match filtered_df with
  | [] => NoMatchWarning
  | _ => RacketGrid (grid_cards filtered_df)
  end.

(** *** The filters, row by row *)

(** What a range filter lets through: everything when its two ends are
    equal, the values between the ends otherwise. *)
Definition range_ok (rg : Z * Z) (v : Z) : bool :=
  (fst rg =? snd rg)%Z || between (fst rg) (snd rg) v.

(** What lines 140-148 let through. *)
Definition price_ok (f : filters) (p : option Q) : bool :=
  match price_range f with
  | Some (lo, hi) =>
      if Qeq_bool lo hi then include_no_price f || is_some p
      else price_mask lo hi (include_no_price f) p
  | None => include_no_price f || is_some p
  end.

Definition row_passes (f : filters) (r : racket) : bool :=
  range_ok (overall_range f) (overall r) && price_ok f (price r) &&
  range_ok (power_range f) (power r) &&
  range_ok (control_range f) (control r) &&
  range_ok (rebound_range f) (rebound r) &&
  range_ok (omgang_range f) (omgang r) &&
  range_ok (sweetspot_range f) (sweetspot r).

(** The name test the specification describes. *)
Definition name_passes (f : filters) (r : racket) : bool :=
  match name_search f with
  | EmptyString => true
  | pat =>
      match name r with
      | Some n => Text.ci_contains n pat
      | None => false
      end
  end.

(** The same filters with the check box set to [b]. *)
Definition set_include (b : bool) (f : filters) : filters :=
  mkFilters (name_search f) (overall_range f) (price_range f) b
    (power_range f) (control_range f) (rebound_range f) (omgang_range f)
    (sweetspot_range f).

(** What the name filter does with the search text, whatever the rows:
    the test it applies to a name, or the exception. *)
Definition search_outcome (text_dtype : bool) (f : filters)
    : result (option string -> bool) :=
  match name_search f with
  | EmptyString => Ok (fun _ => true)
  | pat =>
      if text_dtype then
        match Re.compile pat with
        | Re.Compiled r =>
            Ok (fun n => match n with
                         | Some s => Re.search r (Text.chars s)
                         | None => false
                         end)
        | Re.ReError => Raised re_error
        | Re.OutOfFragment => Unmodelled
        end
      else Raised AttributeError
  end.

(** A rating range whose lower end is above its upper end. *)
Definition inverted (rg : Z * Z) : Prop := (snd rg < fst rg)%Z.

(** *** Notions and sample inputs for the rest of [main] *)

Definition opt_list {A} (o : option A) : list A :=
  match o with Some a => [a] | None => [] end.

(** The cards of one row of the grid. *)
Definition row_cards (df : frame) (row : nat) : list (nat * nat * (nat * racket)) :=
  flat_map
    (fun col_idx =>
       let racket_idx := (row * cols_per_row + col_idx)%nat in
       if (racket_idx <? List.length df)%nat then
         match nth_error df racket_idx with
         | Some racket => [(row, col_idx, racket)]
         | None => []
         end
       else [])
    (seq 0 cols_per_row).

(** Every present price is a whole number. *)
Definition whole_prices (df : frame) : Prop :=
  forall p, In p (present_prices df) -> exists n : Z, p == inject_Z n.

(** A slider whose two ends are apart. *)
Definition has_room (rg : Z * Z) : Prop := (fst rg < snd rg)%Z.

(** Every slider of the page has room between its ends. *)
Definition sliders_have_room (f : filters) : Prop :=
  has_room (overall_range f) /\ has_room (power_range f) /\
  has_room (control_range f) /\ has_room (rebound_range f) /\
  has_room (omgang_range f) /\ has_room (sweetspot_range f) /\
  match price_range f with
  | Some (lo, hi) => lo < hi
  | None => True
  end.

(** Sample inputs. *)
Definition named_search : filters :=
  with_search "a" (scenario_filters sample_rows).

Definition scenario_result_rows : frame :=
  [(0%nat, scenario_row "A" 8 (Some (100 # 1)) sample_a);
   (2%nat, scenario_row "C" 8 (Some (50 # 1)) sample_c);
   (1%nat, scenario_row "B" 6 None sample_b)].

Definition inverted_overall : filters :=
  mkFilters EmptyString (9, 3)%Z None true
    (5, 7)%Z (4, 6)%Z (5, 7)%Z (7, 8)%Z (8, 9)%Z.

Definition inverted_price : filters :=
  mkFilters EmptyString (6, 8)%Z (Some (100 # 1, 50 # 1)) true
    (5, 7)%Z (4, 6)%Z (5, 7)%Z (7, 8)%Z (8, 9)%Z.

Definition nameless_table : frame :=
  read_table [mkRacket None 8 (Some (100 # 1)) 5 6 7 8 9;
              mkRacket None 6 None 6 6 5 7 9].

(** A Table whose highest price, 199.95, is not a whole number. *)
Definition fractional_table : frame :=
  read_table [mkRacket (Some "A"%string) 8 (Some (3999 # 20)) 5 6 7 8 9;
              mkRacket (Some "B"%string) 6 (Some (50 # 1)) 6 5 5 7 8].

(** The filters of the untouched page on the two sample Tables. *)
Definition sample_untouched : filters :=
  mkFilters EmptyString (6, 8)%Z (Some (50 # 1, 100 # 1)) true
    (5, 7)%Z (4, 6)%Z (5, 7)%Z (7, 8)%Z (8, 9)%Z.

Definition fractional_untouched : filters :=
  mkFilters EmptyString (6, 8)%Z (Some (50 # 1, 199 # 1)) true
    (5, 6)%Z (5, 6)%Z (5, 7)%Z (7, 8)%Z (8, 9)%Z.

(** ** Two sorters *)

(** *** Insertion sort on an index array

    Every index is inserted after the indices whose key is not greater:
    equal keys keep the order they have in [idx]. *)

Section Insertion.
Context {K : Type} (lt : K -> K -> bool) (l : list K).

(** [l[i] < l[j]]. *)
Definition less (i j : nat) : bool :=
  match nth_error l i, nth_error l j with
  | Some a, Some b => lt a b
  | _, _ => false
  end.

Fixpoint insert (i : nat) (sorted : list nat) : list nat :=
  match sorted with
  | [] => [i]
  | j :: sorted' =>
      if less i j then i :: j :: sorted' else j :: insert i sorted'
  end.

Definition insertion_sort (idx : list nat) : list nat :=
  fold_left (fun acc i => insert i acc) idx [].

Lemma insert_perm i s : Permutation (insert i s) (i :: s).
Proof.
  induction s as [|j s IH]; simpl; [reflexivity|].
  destruct (less i j); [reflexivity|].
  rewrite IH. apply perm_swap.
Qed.

Lemma fold_insert_perm xs acc :
  Permutation (fold_left (fun acc i => insert i acc) xs acc) (acc ++ xs).
Proof.
  revert acc; induction xs as [|x xs IH]; intros acc; simpl.
  - now rewrite app_nil_r.
  - rewrite IH, insert_perm. apply Permutation_middle.
Qed.

Lemma insertion_sort_perm idx : Permutation (insertion_sort idx) idx.
Proof. unfold insertion_sort. now rewrite fold_insert_perm. Qed.

Hypothesis lt_swo : strict_weak lt.

Lemma lt_asym x y : lt x y = true -> lt y x = false.
Proof.
  destruct lt_swo as (Hirr & Htr & _). intros Hxy.
  destruct (lt y x) eqn:Hyx; [|reflexivity].
  rewrite <- (Hirr x). symmetry. eauto.
Qed.

Variable d : K.
Let R (i j : nat) : Prop := lt (nth j l d) (nth i l d) = false.

Lemma less_nth i j :
  (i < List.length l)%nat -> (j < List.length l)%nat ->
  less i j = lt (nth i l d) (nth j l d).
Proof.
  intros Hi Hj. unfold less.
  now rewrite (nth_error_nth' l d Hi), (nth_error_nth' l d Hj).
Qed.

Lemma insert_sorted i s :
  (i < List.length l)%nat -> Forall (fun j => (j < List.length l)%nat) s ->
  StronglySorted R s -> StronglySorted R (insert i s).
Proof.
  intros Hi Hs Hsorted.
  induction Hsorted as [|j s Hsorted IH Hj]; simpl.
  - repeat constructor.
  - inversion Hs as [|? ? Hjl Hs']; subst.
    destruct (less i j) eqn:Hp; rewrite (less_nth Hi Hjl) in Hp.
    + assert (Hij : R i j) by (unfold R; now apply lt_asym).
      constructor; [now constructor|].
      constructor; [assumption|].
      destruct lt_swo as (_ & _ & Hneg).
      eapply Forall_impl; [|exact Hj]. unfold R. intros x Hx. eauto.
    + constructor; [auto|].
      apply (Permutation_Forall (Permutation_sym (insert_perm i s))).
      constructor; assumption.
Qed.

Lemma fold_insert_sorted xs acc :
  Forall (fun j => (j < List.length l)%nat) xs ->
  Forall (fun j => (j < List.length l)%nat) acc ->
  StronglySorted R acc ->
  StronglySorted R (fold_left (fun acc i => insert i acc) xs acc).
Proof.
  revert acc; induction xs as [|x xs IH]; intros acc Hxs Hacc Hs; simpl.
  - assumption.
  - inversion Hxs; subst. apply IH; auto.
    + apply (Permutation_Forall (Permutation_sym (insert_perm x acc))).
      now constructor.
    + now apply insert_sorted.
Qed.

Lemma insertion_sort_sorted idx :
  Permutation idx (seq 0 (List.length l)) ->
  StronglySorted R (insertion_sort idx).
Proof.
  intros Hp. apply fold_insert_sorted; [|constructor|constructor].
  apply (Permutation_Forall (Permutation_sym Hp)).
  apply Forall_forall. intros j Hj. apply in_seq in Hj. lia.
Qed.
End Insertion.

(** A stable sort, as [kind='stable'] would be: insertion sort of
    [0 .. n-1]. *)
Definition stable_argsort {K} (lt : K -> K -> bool) (l : list K) : list nat :=
  insertion_sort lt l (seq 0 (List.length l)).

Definition stable_sorter : sorter :=
  {| argsort := fun K lt l => stable_argsort lt l;
     argsort_perm := fun K lt l =>
       insertion_sort_perm lt l (seq 0 (List.length l));
     argsort_sorted := fun K lt d l H =>
       @insertion_sort_sorted K lt l H d (seq 0 (List.length l))
         (Permutation_refl _) |}.

(** *** Quicksort on an index array

    numpy's generic argsort for [kind='quicksort'] ([aquicksort] in
    [npysort/quicksort]) partitions a range of more than 17 indices around
    the median of its first, middle and last key and sorts shorter ranges
    by insertion.  This sorter does the partition step once and then
    sorts by insertion: the two agree on arrays of up to 18 keys, where
    the two parts left by the partition have at most 17 indices. *)

Section Quicksort.
Context {K : Type} (lt : K -> K -> bool) (l : list K).

Let n : nat := List.length l.

(** The index array [tosort], by position. *)
Definition INTP_SWAP (t : nat -> nat) (i j : nat) : nat -> nat :=
  if ((i <? n) && (j <? n))%nat
  then fun k => if (k =? i)%nat then t j
                else if (k =? j)%nat then t i else t k
  else t.

(** [do ++pi; while (v[*pi] < vp)], [pi] already advanced once. *)
Fixpoint scan_up (fuel : nat) (t : nat -> nat) (vp : nat) (pi : nat) : nat :=
  match fuel with
  | O => pi
  | Datatypes.S fuel' =>
      if less lt l (t pi) vp then scan_up fuel' t vp (pi + 1) else pi
  end.

(** [do --pj; while (vp < v[*pj])], [pj] already moved down once. *)
Fixpoint scan_down (fuel : nat) (t : nat -> nat) (vp : nat) (pj : nat) : nat :=
  match fuel with
  | O => pj
  | Datatypes.S fuel' =>
      if less lt l vp (t pj) then scan_down fuel' t vp (pj - 1) else pj
  end.

(** The [for (;;)] loop of the partition; returns the array and [pi]. *)
Fixpoint partition_loop (fuel : nat) (t : nat -> nat) (vp : nat)
    (pi pj : nat) : (nat -> nat) * nat :=
  match fuel with
  | O => (t, pi)
  | Datatypes.S fuel' =>
      let pi' := scan_up n t vp (pi + 1) in
      let pj' := scan_down n t vp (pj - 1) in
      if (pj' <=? pi')%nat then (t, pi')
      else partition_loop fuel' (INTP_SWAP t pi' pj') vp pi' pj'
  end.

(** [INTP_SWAP] of the entries at [a] and [b] if the key of the first
    is less than the key of the second. *)
Definition swap_if_less (t : nat -> nat) (a b : nat) : nat -> nat :=
  if less lt l (t a) (t b) then INTP_SWAP t a b else t.

(** One partition of the whole range [pl = 0 .. pr = n - 1]. *)
Definition partition (t : nat -> nat) : nat -> nat :=
  let pl := 0%nat in
  let pr := (n - 1)%nat in
  let pm := (pl + Nat.div2 (pr - pl))%nat in
  let t := swap_if_less t pm pl in
  let t := swap_if_less t pr pm in
  let t := swap_if_less t pm pl in
  let vp := t pm in
  let pj := (pr - 1)%nat in
  let t := INTP_SWAP t pm pj in
  let (t, pi) := partition_loop n t vp pl pj in
  INTP_SWAP t pi (pr - 1).

Definition quicksort_argsort : list nat :=
  let tosort :=
    if (17 <? n)%nat then map (partition (fun i => i)) (seq 0 n)
    else seq 0 n in
  insertion_sort lt l tosort.

(** The index array stays a permutation of [0 .. n-1]. *)
Definition is_perm (t : nat -> nat) : Prop :=
  Permutation (map t (seq 0 n)) (seq 0 n).

Lemma swap_is_perm t i j : is_perm t -> is_perm (INTP_SWAP t i j).
Proof.
  unfold is_perm, INTP_SWAP. intros Ht.
  destruct (Nat.ltb_spec i n); [|exact Ht].
  destruct (Nat.ltb_spec j n); [|exact Ht]. simpl.
  set (tr := fun k => if (k =? i)%nat then j else if (k =? j)%nat then i else k).
  assert (E : map (fun k => if (k =? i)%nat then t j
                            else if (k =? j)%nat then t i else t k) (seq 0 n)
              = map t (map tr (seq 0 n))).
  { rewrite map_map. apply map_ext. intros k. unfold tr.
    destruct (k =? i)%nat; [reflexivity|]. now destruct (k =? j)%nat. }
  rewrite E.
  assert (Htr : Permutation (map tr (seq 0 n)) (seq 0 n)).
  { apply nat_bijection_Permutation.
    - intros x Hx. unfold tr.
      destruct (x =? i)%nat; [assumption|]. now destruct (x =? j)%nat.
    - intros x y. unfold tr.
      destruct (Nat.eqb_spec x i), (Nat.eqb_spec y i),
               (Nat.eqb_spec x j), (Nat.eqb_spec y j); congruence. }
  now rewrite (Permutation_map t Htr).
Qed.

Lemma partition_loop_is_perm fuel t vp pi pj :
  is_perm t -> is_perm (fst (partition_loop fuel t vp pi pj)).
Proof.
  revert t pi pj; induction fuel as [|fuel IH]; intros t pi pj Ht; simpl.
  - exact Ht.
  - destruct (_ <=? _)%nat; [exact Ht|].
    apply IH. now apply swap_is_perm.
Qed.

Lemma swap_if_less_is_perm t a b : is_perm t -> is_perm (swap_if_less t a b).
Proof.
  intros Ht. unfold swap_if_less.
  destruct (less lt l (t a) (t b)); [now apply swap_is_perm|assumption].
Qed.

Lemma partition_is_perm t : is_perm t -> is_perm (partition t).
Proof.
  intros Ht. unfold partition.
  match goal with
  | |- context [partition_loop ?f ?t' ?vp ?pi ?pj] =>
      assert (H4 : is_perm (fst (partition_loop f t' vp pi pj)));
      [|destruct (partition_loop f t' vp pi pj) as [t4 pi']]
  end.
  - apply partition_loop_is_perm, swap_is_perm.
    now repeat apply swap_if_less_is_perm.
  - simpl in H4. now apply swap_is_perm.
Qed.

Lemma tosort_perm :
  Permutation (if (17 <? n)%nat then map (partition (fun i => i)) (seq 0 n)
               else seq 0 n) (seq 0 n).
Proof.
  destruct (17 <? n)%nat; [|reflexivity].
  apply partition_is_perm. unfold is_perm. now rewrite map_id.
Qed.

Lemma quicksort_argsort_perm : Permutation quicksort_argsort (seq 0 n).
Proof.
  unfold quicksort_argsort. rewrite insertion_sort_perm. apply tosort_perm.
Qed.

Lemma quicksort_argsort_sorted (d : K) :
  strict_weak lt -> in_order lt d l quicksort_argsort.
Proof.
  intros Hswo. unfold in_order, quicksort_argsort.
  apply insertion_sort_sorted; [assumption|apply tosort_perm].
Qed.
End Quicksort.

Definition quicksort_sorter : sorter :=
  {| argsort := fun K lt l => quicksort_argsort lt l;
     argsort_perm := fun K lt l => quicksort_argsort_perm lt l;
     argsort_sorted := fun K lt d l H => @quicksort_argsort_sorted K lt l d H |}.

(** ** Boolean indexing *)

Lemma getitem_map (p : nat * racket -> bool) (df : frame) :
  getitem df (map p df) = filter p df.
Proof.
  induction df as [|x df IH]; simpl; [reflexivity|].
  rewrite IH. reflexivity.
Qed.

Lemma filter_id {A} (p : A -> bool) (l : list A) :
  (forall x, In x l -> p x = true) -> filter p l = l.
Proof.
  induction l as [|x l IH]; simpl; intros H; [reflexivity|].
  rewrite (H x (or_introl eq_refl)), IH; auto.
Qed.

Lemma range_filter_spec attr rg df :
  range_filter attr rg df =
  if (fst rg =? snd rg)%Z then df
  else filter (fun x => between (fst rg) (snd rg) (attr (snd x))) df.
Proof.
  unfold range_filter. destruct (fst rg =? snd rg)%Z; simpl; [reflexivity|].
  apply getitem_map.
Qed.

(** A range that covers the whole column removes nothing, whether it is
    applied or skipped. *)
Lemma range_filter_covering attr rg (df : frame) :
  (forall x, In x df -> (fst rg <= attr (snd x) <= snd rg)%Z) ->
  range_filter attr rg df = df.
Proof.
  intros H. rewrite range_filter_spec.
  destruct (fst rg =? snd rg)%Z; [reflexivity|].
  apply filter_id. intros x Hx. unfold between.
  specialize (H x Hx). apply andb_true_iff. split; apply Z.leb_le; lia.
Qed.

Lemma fold_min_le (vs : list Z) (v : Z) :
  (fold_left Z.min vs v <= v)%Z /\
  (forall w, In w vs -> fold_left Z.min vs v <= w)%Z.
Proof.
  revert v; induction vs as [|u vs IH]; intros v; simpl.
  - split; [lia|intros w []].
  - destruct (IH (Z.min v u)) as [H1 H2]. split; [lia|].
    intros w [<-|Hw]; [lia|auto].
Qed.

Lemma fold_max_ge (vs : list Z) (v : Z) :
  (v <= fold_left Z.max vs v)%Z /\
  (forall w, In w vs -> w <= fold_left Z.max vs v)%Z.
Proof.
  revert v; induction vs as [|u vs IH]; intros v; simpl.
  - split; [lia|intros w []].
  - destruct (IH (Z.max v u)) as [H1 H2]. split; [lia|].
    intros w [<-|Hw]; [lia|auto].
Qed.

Lemma full_bounds_cover (attr : racket -> Z) (df : frame) rg :
  at_full_bounds (map (fun x => attr (snd x)) df) rg ->
  forall x, In x df -> (fst rg <= attr (snd x) <= snd rg)%Z.
Proof.
  unfold at_full_bounds, observed_bounds.
  intros H x Hx.
  apply (in_map (fun x => attr (snd x))) in Hx.
  destruct (map (fun x => attr (snd x)) df) as [|v vs]; [destruct Hx|].
  subst rg; simpl fst; simpl snd.
  destruct (fold_min_le vs v) as [Hm1 Hm2].
  destruct (fold_max_ge vs v) as [HM1 HM2].
  destruct Hx as [<-|Hx]; [lia|].
  split; auto.
Qed.

Lemma fold_Qmin_le (ps : list Q) (p : Q) :
  fold_left Qmin ps p <= p /\
  (forall q, In q ps -> fold_left Qmin ps p <= q).
Proof.
  revert p; induction ps as [|u ps IH]; intros p; simpl.
  - split; [apply Qle_refl|intros q []].
  - destruct (IH (Qmin p u)) as [H1 H2]. split.
    + eapply Qle_trans; [exact H1|apply Q.le_min_l].
    + intros q [<-|Hq]; [|auto].
      eapply Qle_trans; [exact H1|apply Q.le_min_r].
Qed.

Lemma fold_Qmax_ge (ps : list Q) (p : Q) :
  p <= fold_left Qmax ps p /\
  (forall q, In q ps -> q <= fold_left Qmax ps p).
Proof.
  revert p; induction ps as [|u ps IH]; intros p; simpl.
  - split; [apply Qle_refl|intros q []].
  - destruct (IH (Qmax p u)) as [H1 H2]. split.
    + eapply Qle_trans; [apply Q.le_max_l|exact H1].
    + intros q [<-|Hq]; [|auto].
      eapply Qle_trans; [apply Q.le_max_r|exact H1].
Qed.

Lemma in_present_prices (df : frame) x p :
  In x df -> price (snd x) = Some p -> In p (present_prices df).
Proof.
  intros Hx Hp. unfold present_prices. apply in_flat_map.
  exists x. split; [assumption|]. rewrite Hp. now left.
Qed.

Lemma price_filter_spec f df :
  price_filter f df =
  match price_range f with
  | Some (lo, hi) =>
      if Qeq_bool lo hi
      then if include_no_price f then df
           else filter (fun x => is_some (price (snd x))) df
      else filter (fun x => price_mask lo hi (include_no_price f)
                              (price (snd x))) df
  | None =>
      if include_no_price f then df
      else filter (fun x => is_some (price (snd x))) df
  end.
Proof.
  unfold price_filter.
  assert (E : forall d : frame,
             getitem d (map (fun x => negb (isna (price (snd x)))) d) =
             filter (fun x => is_some (price (snd x))) d).
  { intros d. rewrite getitem_map. apply filter_ext. intros x.
    unfold isna. apply negb_involutive. }
  destruct (price_range f) as [[lo hi]|].
  - destruct (Qeq_bool lo hi); simpl.
    + destruct (include_no_price f); simpl; [reflexivity|apply E].
    + apply getitem_map.
  - destruct (include_no_price f); simpl; [reflexivity|apply E].
Qed.

(** ** List facts used for the sort *)

Lemma StronglySorted_map {A B} (R : B -> B -> Prop) (h : A -> B) (l : list A) :
  StronglySorted (fun a b => R (h a) (h b)) l -> StronglySorted R (map h l).
Proof.
  induction 1 as [|a l Hs IH Ha]; simpl; constructor; auto.
  apply Forall_map. exact Ha.
Qed.

Lemma StronglySorted_weaken {A} (R R' : A -> A -> Prop) (l : list A) :
  (forall a b, In a l -> In b l -> R a b -> R' a b) ->
  StronglySorted R l -> StronglySorted R' l.
Proof.
  intros H Hs. induction Hs as [|a l Hs IH Ha]; constructor.
  - apply IH. intros x y Hx Hy. apply H; now right.
  - rewrite Forall_forall in *. intros x Hx.
    apply H; [now left|now right|auto].
Qed.

Lemma StronglySorted_snoc {A} (R : A -> A -> Prop) (l : list A) (a : A) :
  StronglySorted R l -> Forall (fun x => R x a) l -> StronglySorted R (l ++ [a]).
Proof.
  induction 1 as [|b l Hs IH Hb]; simpl; intros Hf.
  - repeat constructor.
  - inversion Hf; subst. constructor; [auto|].
    apply Forall_app. split; [assumption|]. now constructor.
Qed.

Lemma StronglySorted_rev {A} (R : A -> A -> Prop) (l : list A) :
  StronglySorted R l -> StronglySorted (fun a b => R b a) (rev l).
Proof.
  induction 1 as [|a l Hs IH Ha]; simpl; [constructor|].
  apply StronglySorted_snoc; [assumption|].
  apply Forall_rev. exact Ha.
Qed.

(** Positions [i < j] of a strongly sorted list are related. *)
Lemma StronglySorted_nth {A} (R : A -> A -> Prop) (l : list A) :
  StronglySorted R l ->
  forall i j x y, (i < j)%nat ->
    nth_error l i = Some x -> nth_error l j = Some y -> R x y.
Proof.
  induction 1 as [|a l Hs IH Ha]; intros i j x y Hij Hi Hj.
  - destruct i; discriminate.
  - destruct j as [|j]; [lia|]. simpl in Hj.
    destruct i as [|i]; simpl in Hi.
    + injection Hi as <-. rewrite Forall_forall in Ha.
      apply Ha. eapply nth_error_In; eauto.
    + eapply IH; [|eauto|eauto]. lia.
Qed.

(** In [P ++ N] every position of [P] comes before every position of [N]. *)
Lemma app_positions {A} (p : A -> bool) (P N : list A) :
  Forall (fun x => p x = false) P -> Forall (fun x => p x = true) N ->
  forall i j x y,
    nth_error (P ++ N) i = Some x -> nth_error (P ++ N) j = Some y ->
    p x = true -> p y = false -> (j < i)%nat.
Proof.
  intros HP HN i j x y Hi Hj Hx Hy.
  rewrite Forall_forall in HP, HN.
  destruct (Nat.lt_ge_cases i (List.length P)) as [Hlt|Hge].
  - rewrite nth_error_app1 in Hi by assumption.
    apply nth_error_In in Hi. rewrite (HP _ Hi) in Hx. discriminate.
  - destruct (Nat.lt_ge_cases j (List.length P)) as [Hlt'|Hge']; [lia|].
    rewrite nth_error_app2 in Hj by assumption.
    apply nth_error_In in Hj. rewrite (HN _ Hj) in Hy. discriminate.
Qed.

(** ** [nargsort] and [take] *)

Lemma take_app (df : frame) (a b : list nat) :
  take df (a ++ b) = take df a ++ take df b.
Proof. unfold take. apply flat_map_app. Qed.

Lemma take_map (df : frame) (idx : list nat) :
  Forall (fun i => (i < List.length df)%nat) idx ->
  take df idx = map (fun i => nth i df no_row) idx.
Proof.
  unfold take.
  induction 1 as [|i idx Hi Hidx IH]; simpl; [reflexivity|].
  rewrite (nth_error_nth' df no_row Hi). simpl.
  now rewrite IH.
Qed.

Lemma take_seq (df : frame) : take df (seq 0 (List.length df)) = df.
Proof.
  rewrite take_map.
  - apply nth_ext with (d := no_row) (d' := no_row).
    + now rewrite length_map, length_seq.
    + intros n Hn. rewrite length_map, length_seq in Hn.
      rewrite (nth_indep _ no_row (nth 0 df no_row)) by now rewrite length_map, length_seq.
      rewrite (map_nth (fun i => nth i df no_row) (seq 0 (List.length df)) 0%nat n).
      now rewrite seq_nth.
  - apply Forall_forall. intros i Hi. apply in_seq in Hi. lia.
Qed.

Section Nargsort.
Context (S : sorter) {K : Type} (lt : K -> K -> bool) (d : K).
Context (g : nat * racket -> option K).

Lemma non_nan_spec (items : list (option K)) (s : nat) :
  Forall (at_key items s) (non_nan s items).
Proof.
  revert s; induction items as [|[k|] items IH]; intros s; simpl.
  - constructor.
  - constructor.
    + split; simpl; [lia|]. now rewrite Nat.sub_diag.
    + eapply Forall_impl; [|apply IH]. intros e [H1 H2]. split; [lia|].
      replace (fst e - s)%nat with (Datatypes.S (fst e - Datatypes.S s)) by lia.
      exact H2.
  - eapply Forall_impl; [|apply IH]. intros e [H1 H2]. split; [lia|].
    replace (fst e - s)%nat with (Datatypes.S (fst e - Datatypes.S s)) by lia.
    exact H2.
Qed.

Lemma non_nan_nan_perm (items : list (option K)) (s : nat) :
  Permutation (map fst (non_nan s items) ++ nan_idx s items)
              (seq s (List.length items)).
Proof.
  revert s; induction items as [|[k|] items IH]; intros s; simpl.
  - constructor.
  - constructor. apply IH.
  - rewrite <- Permutation_middle. constructor. apply IH.
Qed.

(** The rows at the NaN positions are the rows without a key, in the
    order of the frame. *)
Lemma take_nan_idx (pre df : frame) :
  take (pre ++ df) (nan_idx (List.length pre) (map g df)) =
  filter (fun x => isna (g x)) df.
Proof.
  revert pre; induction df as [|x df IH]; intros pre; simpl; [reflexivity|].
  assert (E : pre ++ x :: df = (pre ++ [x]) ++ df) by now rewrite <- app_assoc.
  assert (L : Datatypes.S (List.length pre) = List.length (pre ++ [x]))
    by (rewrite length_app; simpl; lia).
  unfold isna at 1. destruct (g x) as [k|]; simpl.
  - rewrite E, L. apply IH.
  - unfold take at 1. simpl.
    rewrite nth_error_app2, Nat.sub_diag by lia. simpl.
    f_equal. rewrite E, L. apply IH.
Qed.

Lemma nargsort_split (items : list (option K)) (ascending : bool) :
  nargsort S lt items ascending = sorted_idx S lt items ascending ++ nan_idx 0 items.
Proof. unfold nargsort, sorted_idx. now destruct ascending. Qed.

Lemma nth_seq_perm {A} (l : list A) (a : A) (p : list nat) :
  Permutation p (seq 0 (List.length l)) ->
  Permutation (map (fun i => nth i l a) p) l.
Proof.
  intros Hp. rewrite (Permutation_map (fun i => nth i l a) Hp).
  assert (E : map (fun i => nth i l a) (seq 0 (List.length l)) = l);
    [|now rewrite E].
  apply nth_ext with (d := a) (d' := a).
  - now rewrite length_map, length_seq.
  - intros n Hn. rewrite length_map, length_seq in Hn.
    rewrite (nth_indep _ a (nth 0 l a)) by now rewrite length_map, length_seq.
    rewrite (map_nth (fun i => nth i l a) (seq 0 (List.length l)) 0%nat n).
    now rewrite seq_nth.
Qed.

Lemma sorted_idx_perm (items : list (option K)) (ascending : bool) :
  Permutation (sorted_idx S lt items ascending) (map fst (non_nan 0 items)).
Proof.
  unfold sorted_idx.
  set (nn := if ascending then non_nan 0 items else rev (non_nan 0 items)).
  assert (Hnn : Permutation (map fst nn) (map fst (non_nan 0 items))).
  { subst nn. destruct ascending; [reflexivity|].
    apply Permutation_map. symmetry. apply Permutation_rev. }
  assert (Hidx : Permutation
            (map (fun i => nth i (map fst nn) 0%nat) (argsort S lt (map snd nn)))
            (map fst nn)).
  { apply nth_seq_perm.
    rewrite length_map, <- (length_map snd). apply argsort_perm. }
  destruct ascending.
  - now rewrite Hidx.
  - now rewrite <- Permutation_rev, Hidx.
Qed.

Lemma nargsort_perm (items : list (option K)) (ascending : bool) :
  Permutation (nargsort S lt items ascending) (seq 0 (List.length items)).
Proof.
  rewrite nargsort_split, sorted_idx_perm. apply non_nan_nan_perm.
Qed.

(** Sorting returns the rows it was given, each once. *)
Lemma take_nargsort_perm (df : frame) (ascending : bool) :
  Permutation (take df (nargsort S lt (map g df) ascending)) df.
Proof.
  pose proof (nargsort_perm (map g df) ascending) as Hp.
  rewrite length_map in Hp.
  rewrite take_map.
  - rewrite (Permutation_map _ Hp), <- take_map.
    + now rewrite take_seq.
    + apply Forall_forall. intros i Hi. apply in_seq in Hi. lia.
  - apply (Permutation_Forall (Permutation_sym Hp)).
    apply Forall_forall. intros i Hi. apply in_seq in Hi. lia.
Qed.

(** A row found through an entry of [non_nan] carries that entry's key. *)
Lemma at_key_row (df : frame) (e : nat * K) :
  at_key (map g df) 0 e ->
  (fst e < List.length df)%nat /\ g (nth (fst e) df no_row) = Some (snd e).
Proof.
  intros [_ H]. rewrite Nat.sub_0_r in H.
  assert (Hlt : (fst e < List.length df)%nat).
  { rewrite <- (length_map g). apply nth_error_Some. now rewrite H. }
  split; [assumption|].
  rewrite nth_error_map, (nth_error_nth' df no_row Hlt) in H. simpl in H.
  now injection H.
Qed.

(** The rows of the sorted part, for the entries [nn] handed to numpy:
    all have a key, and the keys never go down. *)
Lemma sorted_rows (df : frame) (nn : list (nat * K)) :
  strict_weak lt -> Forall (at_key (map g df) 0) nn ->
  let idx := map (fun i => nth i (map fst nn) 0%nat) (argsort S lt (map snd nn)) in
  Forall (fun i => (i < List.length df)%nat) idx /\
  Forall (fun x => isna (g x) = false) (map (fun i => nth i df no_row) idx) /\
  StronglySorted
    (fun x y => forall a b, g x = Some a -> g y = Some b -> lt b a = false)
    (map (fun i => nth i df no_row) idx).
Proof.
  intros Hswo Hnn idx.
  pose proof (argsort_perm S lt (map snd nn)) as Hperm.
  rewrite length_map in Hperm.
  assert (Hin : forall i, In i (argsort S lt (map snd nn)) ->
                  (i < List.length nn)%nat).
  { intros i Hi. apply (Permutation_in _ Hperm) in Hi. apply in_seq in Hi. lia. }
  assert (Hrow : forall i, In i (argsort S lt (map snd nn)) ->
            (nth i (map fst nn) 0%nat < List.length df)%nat /\
            g (nth (nth i (map fst nn) 0%nat) df no_row) =
            Some (nth i (map snd nn) d)).
  { intros i Hi. specialize (Hin i Hi).
    rewrite Forall_forall in Hnn.
    destruct (at_key_row df (Hnn _ (nth_In nn (0%nat, d) Hin))) as [H1 H2].
    rewrite (nth_indep _ 0%nat (fst (0%nat, d))) by now rewrite length_map.
    rewrite (nth_indep _ d (snd (0%nat, d))) by now rewrite length_map.
    rewrite !map_nth. auto. }
  subst idx. repeat split.
  - apply Forall_map, Forall_forall. intros i Hi. apply (Hrow i Hi).
  - rewrite map_map. apply Forall_map, Forall_forall. intros i Hi.
    unfold isna. now rewrite (proj2 (Hrow i Hi)).
  - rewrite map_map. apply StronglySorted_map.
    eapply StronglySorted_weaken; [|apply (argsort_sorted S d (map snd nn) Hswo)].
    intros i j Hi Hj Hij a b Ha Hb. simpl in Hij.
    rewrite (proj2 (Hrow i Hi)) in Ha. rewrite (proj2 (Hrow j Hj)) in Hb.
    injection Ha as <-. injection Hb as <-. exact Hij.
Qed.

(** The frame [take] returns for the indexer of [nargsort]: the rows with
    a key, ordered by it in the direction asked for, then the rows
    without a key in the order of the frame. *)
Lemma take_nargsort (df : frame) (ascending : bool) :
  strict_weak lt ->
  exists P : frame,
    take df (nargsort S lt (map g df) ascending) =
      P ++ filter (fun x => isna (g x)) df /\
    Forall (fun x => isna (g x) = false) P /\
    StronglySorted
      (fun x y => forall a b, g x = Some a -> g y = Some b ->
                    (if ascending then lt b a else lt a b) = false) P.
Proof.
  intros Hswo.
  rewrite nargsort_split, take_app.
  pose proof (take_nan_idx [] df) as E. simpl in E. rewrite E. clear E.
  exists (take df (sorted_idx S lt (map g df) ascending)). split; [reflexivity|].
  unfold sorted_idx. destruct ascending.
  - destruct (sorted_rows df Hswo (non_nan_spec (map g df) 0)) as (H1 & H2 & H3).
    rewrite take_map by exact H1. split; assumption.
  - assert (Hnn : Forall (at_key (map g df) 0) (rev (non_nan 0 (map g df))))
      by apply Forall_rev, non_nan_spec.
    destruct (sorted_rows df Hswo Hnn) as (H1 & H2 & H3).
    rewrite take_map by now apply Forall_rev.
    rewrite map_rev. split.
    + now apply Forall_rev.
    + apply StronglySorted_rev in H3.
      eapply StronglySorted_weaken; [|exact H3].
      simpl. intros x y _ _ H a b Ha Hb. eauto.
Qed.
End Nargsort.

(** ** The three key orders are strict weak orders *)

Lemma Zltb_strict_weak : strict_weak Z.ltb.
Proof.
  repeat split.
  - intros x. apply Z.ltb_irrefl.
  - intros x y z. rewrite !Z.ltb_lt. lia.
  - intros x y z. rewrite !Z.ltb_ge. lia.
Qed.

Lemma Qltb_lt (a b : Q) : Qltb a b = true <-> a < b.
Proof.
  unfold Qltb. rewrite negb_true_iff. split.
  - intros H. apply Qnot_le_lt. intros Hle.
    apply Qle_bool_iff in Hle. congruence.
  - intros H. destruct (Qle_bool b a) eqn:E; [|reflexivity].
    apply Qle_bool_iff in E. exfalso. exact (Qlt_not_le _ _ H E).
Qed.

Lemma Qltb_ge (a b : Q) : Qltb a b = false <-> b <= a.
Proof.
  unfold Qltb. rewrite negb_false_iff. apply Qle_bool_iff.
Qed.

Lemma Qltb_strict_weak : strict_weak Qltb.
Proof.
  repeat split.
  - intros x. apply Qltb_ge. apply Qle_refl.
  - intros x y z. rewrite !Qltb_lt. apply Qlt_trans.
  - intros x y z. rewrite !Qltb_ge. intros H1 H2. eapply Qle_trans; eauto.
Qed.

Lemma ltb_chars_irrefl (a : list ascii) : Text.ltb_chars a a = false.
Proof.
  induction a as [|x a IH]; simpl; [reflexivity|].
  now rewrite Nat.ltb_irrefl.
Qed.

Lemma ltb_chars_trans (a b c : list ascii) :
  Text.ltb_chars a b = true -> Text.ltb_chars b c = true ->
  Text.ltb_chars a c = true.
Proof.
  revert b c; induction a as [|x a IH]; intros [|y b] [|z c]; simpl;
    try congruence.
  destruct (Nat.ltb_spec (Text.code x) (Text.code y));
    destruct (Nat.ltb_spec (Text.code y) (Text.code x));
    destruct (Nat.ltb_spec (Text.code y) (Text.code z));
    destruct (Nat.ltb_spec (Text.code z) (Text.code y));
    destruct (Nat.ltb_spec (Text.code x) (Text.code z));
    destruct (Nat.ltb_spec (Text.code z) (Text.code x));
    try congruence; try lia.
  apply IH.
Qed.

Lemma ltb_chars_negtrans (a b c : list ascii) :
  Text.ltb_chars a b = false -> Text.ltb_chars b c = false ->
  Text.ltb_chars a c = false.
Proof.
  revert b c; induction a as [|x a IH]; intros [|y b] [|z c]; simpl;
    try congruence.
  destruct (Nat.ltb_spec (Text.code x) (Text.code y));
    destruct (Nat.ltb_spec (Text.code y) (Text.code x));
    destruct (Nat.ltb_spec (Text.code y) (Text.code z));
    destruct (Nat.ltb_spec (Text.code z) (Text.code y));
    destruct (Nat.ltb_spec (Text.code x) (Text.code z));
    destruct (Nat.ltb_spec (Text.code z) (Text.code x));
    try congruence; try lia.
  apply IH.
Qed.

Lemma Text_ltb_strict_weak : strict_weak Text.ltb.
Proof.
  unfold Text.ltb. repeat split.
  - intros x. apply ltb_chars_irrefl.
  - intros x y z. apply ltb_chars_trans.
  - intros x y z. apply ltb_chars_negtrans.
Qed.

(** ** What [sort_values] returns *)

Lemma filter_none {A} (l : list A) : filter (fun _ => false) l = [].
Proof. induction l; simpl; auto. Qed.

Lemma sort_rating_spec (S : sorter) (df : frame) (attr : racket -> Z)
    (ascending : bool) :
  exists P : frame,
    take df (sort_by_rating S df attr ascending) = P ++ [] /\
    StronglySorted
      (fun x y => (if ascending then (attr (snd y) <? attr (snd x))%Z
                   else (attr (snd x) <? attr (snd y))%Z) = false) P.
Proof.
  destruct (@take_nargsort S Z Z.ltb 0%Z (fun x : nat * racket => Some (attr (snd x)))
              df ascending Zltb_strict_weak) as (P & HP & _ & Hs).
  exists P. split.
  - unfold sort_by_rating. rewrite HP. f_equal. apply filter_none.
  - eapply StronglySorted_weaken; [|exact Hs].
    intros x y _ _ H. destruct ascending; now apply H.
Qed.

Lemma sort_values_spec (S : sorter) (df : frame) (by_ : column) (ascending : bool) :
  exists P : frame,
    sort_values S df by_ ascending =
      P ++ filter (fun x => missing by_ (snd x)) df /\
    Forall (fun x => missing by_ (snd x) = false) P /\
    StronglySorted (ordered_by by_ ascending) P.
Proof.
  unfold sort_values, sort_indexer, ordered_by.
  destruct by_;
    try (match goal with
         | |- context [sort_by_rating S df ?attr ascending] =>
             destruct (sort_rating_spec S df attr ascending) as (P & HP & Hs);
             exists P; simpl; rewrite filter_none;
             split; [exact HP|split; [apply Forall_forall; reflexivity|exact Hs]]
         end).
  - destruct (@take_nargsort S Q Qltb 0 (fun x : nat * racket => price (snd x))
                df ascending Qltb_strict_weak) as (P & HP & Hm & Hs).
    exists P. split; [exact HP|]. split; [exact Hm|].
    eapply StronglySorted_weaken; [|exact Hs].
    intros x y Hx Hy H. simpl.
    rewrite Forall_forall in Hm. pose proof (Hm x Hx) as Mx. pose proof (Hm y Hy) as My.
    unfold isna in Mx, My.
    destruct (price (snd x)) as [a|] eqn:Ea; [|discriminate].
    destruct (price (snd y)) as [b|] eqn:Eb; [|discriminate].
    destruct ascending; now apply H.
  - destruct (@take_nargsort S string Text.ltb EmptyString (fun x : nat * racket => name (snd x))
                df ascending Text_ltb_strict_weak) as (P & HP & Hm & Hs).
    exists P. split; [exact HP|]. split; [exact Hm|].
    eapply StronglySorted_weaken; [|exact Hs].
    intros x y Hx Hy H. simpl.
    rewrite Forall_forall in Hm. pose proof (Hm x Hx) as Mx. pose proof (Hm y Hy) as My.
    unfold isna in Mx, My.
    destruct (name (snd x)) as [a|] eqn:Ea; [|discriminate].
    destruct (name (snd y)) as [b|] eqn:Eb; [|discriminate].
    destruct ascending; now apply H.
Qed.

(** ** The filters only select rows *)

Lemma selection_refl (df : frame) : selection df df.
Proof.
  exists (fun _ => true). symmetry. apply filter_id. reflexivity.
Qed.

Lemma selection_filter (p : nat * racket -> bool) (df' df : frame) :
  selection df' df -> selection (filter p df') df.
Proof.
  intros [q ->]. exists (fun x => q x && p x).
  induction df as [|x df IH]; simpl; [reflexivity|].
  destruct (q x); simpl; [|exact IH].
  destruct (p x); now rewrite IH.
Qed.

Lemma range_filter_selection attr rg (df' df : frame) :
  selection df' df -> selection (range_filter attr rg df') df.
Proof.
  intros H. rewrite range_filter_spec.
  destruct (fst rg =? snd rg)%Z; [assumption|now apply selection_filter].
Qed.

Lemma price_filter_selection f (df' df : frame) :
  selection df' df -> selection (price_filter f df') df.
Proof.
  intros H. rewrite price_filter_spec.
  destruct (price_range f) as [[lo hi]|].
  - destruct (Qeq_bool lo hi); [|now apply selection_filter].
    destruct (include_no_price f); [assumption|now apply selection_filter].
  - destruct (include_no_price f); [assumption|now apply selection_filter].
Qed.

Lemma name_filter_selection dtype f (df' df res : frame) :
  selection df' df -> name_filter dtype f df' = Ok res -> selection res df.
Proof.
  intros H. unfold name_filter, str_contains.
  destruct (name_search f) as [|c pat].
  - now intros [= <-].
  - destruct dtype; [|discriminate].
    destruct (Re.compile (String c pat)) as [r| |]; try discriminate.
    intros [= <-]. rewrite map_map.
    rewrite (getitem_map (fun x => match name (snd x) with
                                   | Some s => Re.search r (Text.chars s)
                                   | None => false
                                   end)).
    now apply selection_filter.
Qed.

Lemma apply_filters_selection (df : frame) (f : filters) (res : frame) :
  apply_filters df f = Ok res -> selection res df.
Proof.
  unfold apply_filters, attribute_filters. simpl. intros H.
  eapply name_filter_selection; [|exact H].
  repeat apply range_filter_selection.
  apply price_filter_selection, range_filter_selection, selection_refl.
Qed.

Lemma StronglySorted_filter {A} (R : A -> A -> Prop) (p : A -> bool) (l : list A) :
  StronglySorted R l -> StronglySorted R (filter p l).
Proof.
  induction 1 as [|a l Hs IH Ha]; simpl; [constructor|].
  destruct (p a); [|assumption].
  constructor; [assumption|].
  rewrite Forall_forall in *. intros x Hx. apply filter_In in Hx. apply Ha, Hx.
Qed.

Lemma selection_labels (df' df : frame) :
  selection df' df -> labels_increasing df -> labels_increasing df'.
Proof. intros [p ->]. apply StronglySorted_filter. Qed.

Lemma read_table_labels (rows : list racket) : labels_increasing (read_table rows).
Proof.
  unfold read_table, labels_increasing.
  generalize 0%nat. induction rows as [|r rows IH]; intros s; simpl.
  - constructor.
  - constructor; [apply IH|].
    apply Forall_forall. intros [i x] Hin. apply in_combine_l in Hin.
    apply in_seq in Hin. simpl. lia.
Qed.

(** ** Filters that keep every row *)

Lemma apply_filters_keep_all (df : frame) (f : filters) :
  range_filter overall (overall_range f) df = df ->
  price_filter f df = df ->
  (forall x, In x df -> (fst (power_range f) <= power (snd x) <= snd (power_range f))%Z) ->
  (forall x, In x df -> (fst (control_range f) <= control (snd x) <= snd (control_range f))%Z) ->
  (forall x, In x df -> (fst (rebound_range f) <= rebound (snd x) <= snd (rebound_range f))%Z) ->
  (forall x, In x df -> (fst (omgang_range f) <= omgang (snd x) <= snd (omgang_range f))%Z) ->
  (forall x, In x df -> (fst (sweetspot_range f) <= sweetspot (snd x) <= snd (sweetspot_range f))%Z) ->
  name_search f = EmptyString ->
  apply_filters df f = Ok df.
Proof.
  intros Hov Hpr Hpo Hco Hre Hom Hsw Hs.
  unfold apply_filters, attribute_filters, name_filter. simpl.
  rewrite Hov, Hpr.
  rewrite (range_filter_covering power _ df Hpo).
  rewrite (range_filter_covering control _ df Hco).
  rewrite (range_filter_covering rebound _ df Hre).
  rewrite (range_filter_covering omgang _ df Hom).
  rewrite (range_filter_covering sweetspot _ df Hsw).
  now rewrite Hs.
Qed.

Lemma price_filter_full_bounds (df : frame) (f : filters) :
  price_at_full_bounds df (price_range f) -> include_no_price f = true ->
  price_filter f df = df.
Proof.
  intros Hpr Hinc.
  rewrite price_filter_spec. rewrite Hinc.
  unfold price_at_full_bounds, observed_price_bounds in Hpr.
  destruct (price_range f) as [[lo hi]|]; [|reflexivity].
  destruct (Qeq_bool lo hi); [reflexivity|].
  apply filter_id. intros x Hx. unfold price_mask, price_between, isna.
  destruct (price (snd x)) as [p|] eqn:Ep; [|reflexivity].
  pose proof (in_present_prices df x Hx Ep) as Hin.
  destruct (present_prices df) as [|p0 ps]; [destruct Hin|].
  destruct Hpr as [Hlo Hhi].
  destruct (fold_Qmin_le ps p0) as [Hm1 Hm2].
  destruct (fold_Qmax_ge ps p0) as [HM1 HM2].
  simpl. rewrite orb_false_r. apply andb_true_iff.
  split; apply Qle_bool_iff.
  - rewrite Hlo. destruct Hin as [<-|Hin]; auto.
  - rewrite Hhi. destruct Hin as [<-|Hin]; auto.
Qed.

(** Two keys in strict order leave a sorter no choice. *)
Lemma argsort_two (S : sorter) {K} (lt : K -> K -> bool) (a b : K) :
  strict_weak lt -> lt a b = true -> argsort S lt [a; b] = [0; 1]%nat.
Proof.
  intros Hswo Hab.
  pose proof (argsort_perm S lt [a; b]) as Hp. simpl in Hp.
  apply Permutation_sym, Permutation_length_2_inv in Hp.
  destruct Hp as [Hp|Hp]; [exact Hp|].
  pose proof (argsort_sorted S a [a; b] Hswo) as Hs.
  unfold in_order in Hs. rewrite Hp in Hs.
  inversion Hs as [|? ? _ Hf]; subst.
  inversion Hf as [|? ? H01 _]; subst. simpl in H01. congruence.
Qed.

Lemma full_range_at_full_bounds (vals : list Z) :
  at_full_bounds vals (full_range vals).
Proof.
  unfold at_full_bounds, full_range. now destruct (observed_bounds vals).
Qed.

(** ** The scenario *)

Lemma scenario_filters_keep_all (a b c : racket) :
  let rows := scenario_table a b c in
  apply_filters (read_table rows) (scenario_filters rows) = Ok (read_table rows).
Proof.
  intros rows.
  apply apply_filters_keep_all; try reflexivity;
    intros x Hx;
    match goal with
    | |- (_ <= ?attr (snd x) <= _)%Z =>
        apply (full_bounds_cover attr (read_table rows)); [|exact Hx]
    end; apply full_range_at_full_bounds.
Qed.

Lemma scenario_result (S : sorter) (a b c : racket) :
  let rows := scenario_table a b c in
  filter_and_sort_data S (read_table rows) (scenario_filters rows) c_price desc =
  Ok [(0%nat, scenario_row "A" 8 (Some (100 # 1)) a);
      (2%nat, scenario_row "C" 8 (Some (50 # 1)) c);
      (1%nat, scenario_row "B" 6 None b)].
Proof.
  intros rows. subst rows. unfold filter_and_sort_data.
  rewrite (scenario_filters_keep_all a b c).
  unfold sort_values, sort_indexer, nargsort. simpl.
  rewrite (@argsort_two S Q Qltb (50 # 1) (100 # 1) Qltb_strict_weak eq_refl).
  reflexivity.
Qed.

(** ** Facts on the summary metrics *)

Lemma present_prices_count (df : frame) :
  List.length (present_prices df) = rackets_with_price df.
Proof.
  unfold rackets_with_price, present_prices. rewrite getitem_map.
  induction df as [|x df IH]; simpl; [reflexivity|].
  unfold isna at 1. destruct (price (snd x)); simpl; now rewrite IH.
Qed.

Lemma price_counts_partition (df : frame) :
  (rackets_with_price df + rackets_without_price df = shown_rackets df)%nat.
Proof.
  unfold rackets_with_price, rackets_without_price, shown_rackets.
  rewrite !getitem_map.
  induction df as [|x df IH]; simpl; [reflexivity|].
  destruct (isna (price (snd x))); simpl; lia.
Qed.

(** ** The store only grows *)

Lemma nth_error_extend (h ext : Store.heap) (l : Store.loc) (fr : frame) :
  nth_error h l = Some fr -> nth_error (h ++ ext) l = Some fr.
Proof.
  intros H. rewrite nth_error_app1; [assumption|].
  apply nth_error_Some. congruence.
Qed.

Lemma nth_error_new (h : Store.heap) (fr : frame) :
  nth_error (h ++ [fr]) (List.length h) = Some fr.
Proof. rewrite nth_error_app2, Nat.sub_diag by lia. reflexivity. Qed.

Lemma runs_to_ret : runs_to Store.ret (fun fr => fr).
Proof.
  intros h l fr H. exists [], l. rewrite app_nil_r. auto.
Qed.

Lemma runs_to_getitem (mask : frame -> list bool) :
  runs_to (fun l => Store.getitem_by l mask) (fun fr => getitem fr (mask fr)).
Proof.
  intros h l fr H. exists [getitem fr (mask fr)], (List.length h).
  unfold Store.getitem_by, Store.bind, Store.load, Store.alloc. rewrite H.
  split; [reflexivity|]. split; [apply nth_error_new|now right].
Qed.

Lemma runs_to_sort (S : sorter) (by_ : column) (ascending : bool) :
  runs_to (fun l => Store.sort_values_new S l by_ ascending)
          (fun fr => sort_values S fr by_ ascending).
Proof.
  intros h l fr H. exists [sort_values S fr by_ ascending], (List.length h).
  unfold Store.sort_values_new, Store.bind, Store.load, Store.alloc. rewrite H.
  split; [reflexivity|]. split; [apply nth_error_new|now right].
Qed.

Lemma runs_to_copy : runs_to Store.copy (fun fr => fr).
Proof.
  intros h l fr H. exists [fr], (List.length h).
  unfold Store.copy, Store.bind, Store.load, Store.alloc. rewrite H.
  split; [reflexivity|]. split; [apply nth_error_new|now right].
Qed.

Lemma runs_to_bind m1 m2 (p1 p2 : frame -> frame) :
  runs_to m1 p1 -> runs_to m2 p2 ->
  runs_to (fun l => Store.bind (m1 l) m2) (fun fr => p2 (p1 fr)).
Proof.
  intros H1 H2 h l fr H.
  destruct (H1 h l fr H) as (ext1 & l1 & E1 & P1 & F1).
  destruct (H2 (h ++ ext1) l1 (p1 fr) P1) as (ext2 & l2 & E2 & P2 & F2).
  exists (ext1 ++ ext2), l2. unfold Store.bind. rewrite E1, E2, app_assoc.
  split; [reflexivity|]. split; [assumption|].
  rewrite length_app in F2. destruct F2 as [->|F2]; [assumption|right; lia].
Qed.

Lemma runs_to_range_filter attr rg :
  runs_to (Store.range_filter_m attr rg) (range_filter attr rg).
Proof.
  unfold Store.range_filter_m, range_filter.
  destruct (negb (fst rg =? snd rg)%Z).
  - apply (runs_to_getitem
             (map (fun x => between (fst rg) (snd rg) (attr (snd x))))).
  - apply runs_to_ret.
Qed.

Lemma runs_to_price_filter f :
  runs_to (Store.price_filter_m f) (price_filter f).
Proof.
  unfold Store.price_filter_m, price_filter.
  destruct (price_range f) as [[lo hi]|].
  - destruct (negb (Qeq_bool lo hi)).
    + apply (runs_to_getitem
               (map (fun x => price_mask lo hi (include_no_price f) (price (snd x))))).
    + destruct (negb (include_no_price f)); [|apply runs_to_ret].
      apply (runs_to_getitem (map (fun x => negb (isna (price (snd x)))))).
  - destruct (negb (include_no_price f)); [|apply runs_to_ret].
    apply (runs_to_getitem (map (fun x => negb (isna (price (snd x)))))).
Qed.

Lemma runs_to_attribute_filters f attrs :
  runs_to (Store.attribute_filters_m f attrs)
          (fun fr => fold_left
                       (fun acc (a : (racket -> Z) * (filters -> Z * Z)) =>
                          range_filter (fst a) (snd a f) acc) attrs fr).
Proof.
  induction attrs as [|a attrs IH]; simpl.
  - apply runs_to_ret.
  - apply (runs_to_bind (runs_to_range_filter (fst a) (snd a f)) IH).
Qed.

(** The name filter may raise; the heap is still only extended. *)
Lemma name_filter_m_spec dtype f (h : Store.heap) (l : Store.loc) (fr : frame) :
  nth_error h l = Some fr ->
  exists ext,
    snd (Store.name_filter_m dtype f l h) = h ++ ext /\
    match fst (Store.name_filter_m dtype f l h) with
    | Ok l' =>
        exists fr', name_filter dtype f fr = Ok fr' /\
                    nth_error (h ++ ext) l' = Some fr' /\
                    (l' = l \/ (List.length h <= l')%nat)
    | Raised e => name_filter dtype f fr = Raised e
    | Unmodelled => name_filter dtype f fr = Unmodelled
    end.
Proof.
  intros H. unfold Store.name_filter_m, name_filter.
  destruct (name_search f) as [|c pat].
  - exists []. simpl. rewrite app_nil_r. split; [reflexivity|].
    exists fr. auto.
  - unfold Store.bind, Store.load, Store.lift, Store.alloc. rewrite H.
    destruct (str_contains dtype (map (fun x => name (snd x)) fr) (String c pat))
      as [mask|e|].
    + exists [getitem fr mask]. simpl. split; [reflexivity|].
      exists (getitem fr mask). split; [reflexivity|].
      split; [apply nth_error_new|now right].
    + exists []. simpl. now rewrite app_nil_r.
    + exists []. simpl. now rewrite app_nil_r.
Qed.

Lemma bind_runs_to {B} m (p : frame -> frame) (k : Store.loc -> Store.M B)
    (h : Store.heap) (l : Store.loc) (fr : frame) :
  runs_to m p -> nth_error h l = Some fr ->
  exists (ext : Store.heap) (l' : Store.loc),
    Store.bind (m l) k h = k l' (h ++ ext) /\
    nth_error (h ++ ext) l' = Some (p fr) /\
    (l' = l \/ (List.length h <= l')%nat).
Proof.
  intros Hm H. destruct (Hm h l fr H) as (ext & l' & E & P & F).
  exists ext, l'. unfold Store.bind. rewrite E. auto.
Qed.

(** One step of a chain of binds. *)
Ltac store_step Hrun P ext l' P' F :=
  match goal with
  | |- context [Store.bind (?m ?l) ?k ?h] =>
      let E := fresh "E" in
      destruct (@bind_runs_to _ m _ k h l _ Hrun P) as (ext & l' & E & P' & F);
      rewrite E; clear E
  end.

(** ** The matcher decides the language *)

Lemma nullable_spec (r : Re.regex) :
  Re.nullable r = true <-> Re.matches r [].
Proof.
  split.
  - induction r; simpl; intros H; try discriminate.
    + constructor.
    + apply andb_true_iff in H. destruct H.
      change (@nil ascii) with (@nil ascii ++ []). constructor; auto.
    + apply orb_true_iff in H. destruct H; [apply Re.MAltL|apply Re.MAltR]; auto.
    + constructor.
  - intros H. remember [] as s eqn:Es.
    induction H; simpl; try discriminate; try reflexivity.
    + apply app_eq_nil in Es. destruct Es.
      rewrite IHmatches1, IHmatches2; auto.
    + rewrite IHmatches; auto.
    + rewrite IHmatches; auto. apply orb_true_r.
Qed.

Lemma deriv_sound (c : ascii) (r : Re.regex) (s : list ascii) :
  Re.matches (Re.deriv c r) s -> Re.matches r (c :: s).
Proof.
  revert s; induction r; simpl; intros s H.
  - inversion H.
  - inversion H.
  - destruct (Ascii.eqb_spec (Text.lower_char c) (Text.lower_char c0));
      inversion H; subst. now constructor.
  - destruct (Ascii.eqb_spec c Re.newline); inversion H; subst. now constructor.
  - destruct (Re.nullable r1) eqn:N.
    + inversion H; subst.
      * match goal with H' : Re.matches (Re.Cat _ _) _ |- _ => inversion H'; subst end.
        change (c :: s1 ++ s2) with ((c :: s1) ++ s2). constructor; auto.
      * change (c :: s) with ([] ++ c :: s). constructor; auto.
        now apply nullable_spec.
    + inversion H; subst.
      change (c :: s1 ++ s2) with ((c :: s1) ++ s2). constructor; auto.
  - inversion H; subst; [apply Re.MAltL|apply Re.MAltR]; auto.
  - inversion H; subst.
    change (c :: s1 ++ s2) with ((c :: s1) ++ s2). constructor; auto.
Qed.

Lemma deriv_complete (c : ascii) (r : Re.regex) (s : list ascii) :
  Re.matches r (c :: s) -> Re.matches (Re.deriv c r) s.
Proof.
  intros H. remember (c :: s) as cs eqn:E. revert s E.
  induction H; intros s0 E; try discriminate; simpl.
  - injection E as -> <-.
    rewrite H, Ascii.eqb_refl. constructor.
  - injection E as -> <-.
    destruct (Ascii.eqb_spec c Re.newline); [contradiction|constructor].
  - destruct s1 as [|a s1]; simpl in E.
    + subst s2. apply nullable_spec in H. rewrite H.
      apply Re.MAltR. now apply IHmatches2.
    + injection E as -> <-.
      destruct (Re.nullable r1); [apply Re.MAltL|]; constructor; auto.
  - apply Re.MAltL. auto.
  - apply Re.MAltR. auto.
  - destruct s1 as [|a s1]; simpl in E.
    + now apply IHmatches2.
    + injection E as -> <-. constructor; auto.
Qed.

Lemma match_prefix_spec (r : Re.regex) (s : list ascii) :
  Re.match_prefix r s = true <->
  exists s1 s2, s = s1 ++ s2 /\ Re.matches r s1.
Proof.
  revert r; induction s as [|c s IH]; intros r; simpl.
  - rewrite orb_false_r, nullable_spec. split.
    + intros H. now exists [], [].
    + intros (s1 & s2 & E & H). symmetry in E.
      apply app_eq_nil in E. destruct E. now subst.
  - rewrite orb_true_iff, nullable_spec, IH. split.
    + intros [H|(s1 & s2 & -> & H)].
      * now exists [], (c :: s).
      * exists (c :: s1), s2. split; [reflexivity|now apply deriv_sound].
    + intros (s1 & s2 & E & H). destruct s1 as [|a s1]; [now left|right].
      simpl in E. injection E as <- ->.
      exists s1, s2. split; [reflexivity|now apply deriv_complete].
Qed.

Lemma search_spec (r : Re.regex) (s : list ascii) :
  Re.search r s = true <->
  exists s0 s1 s2, s = s0 ++ s1 ++ s2 /\ Re.matches r s1.
Proof.
  induction s as [|c s IH].
  - change (Re.search r []) with (Re.match_prefix r [] || false).
    rewrite orb_false_r, match_prefix_spec. split.
    + intros (s1 & s2 & E & H). now exists [], s1, s2.
    + intros (s0 & s1 & s2 & E & H). symmetry in E.
      apply app_eq_nil in E. destruct E as [-> E]. eauto.
  - change (Re.search r (c :: s))
      with (Re.match_prefix r (c :: s) || Re.search r s).
    rewrite orb_true_iff, match_prefix_spec, IH. split.
    + intros [(s1 & s2 & E & H)|(s0 & s1 & s2 & -> & H)].
      * now exists [], s1, s2.
      * now exists (c :: s0), s1, s2.
    + intros (s0 & s1 & s2 & E & H). destruct s0 as [|a s0]; simpl in E.
      * left. eauto.
      * right. injection E as <- ->. eauto.
Qed.

(** ** Patterns at work *)

Example compile_paren : Re.compile "(" = Re.ReError.
Proof. reflexivity. Qed.

Example compile_dot : Re.compile "." = Re.Compiled (Re.Cat Re.Eps Re.Dot).
Proof. reflexivity. Qed.

Example search_pro :
  match Re.compile "pro" with
  | Re.Compiled r => Re.search r (Text.chars "ProMax X2")
  | _ => false
  end = true.
Proof. reflexivity. Qed.

(** ** Literal search texts *)

Lemma literal_spec (cs : list ascii) (acc : Re.regex) (s : list ascii) :
  Re.matches (Re.literal acc cs) s <->
  exists s1 s2, s = s1 ++ s2 /\ Re.matches acc s1 /\
                map Text.lower_char s2 = map Text.lower_char cs.
Proof.
  revert acc s; induction cs as [|c cs IH]; intros acc s; simpl.
  - split.
    + intros H. exists s, []. now rewrite app_nil_r.
    + intros (s1 & s2 & -> & H & E). apply map_eq_nil in E. subst.
      now rewrite app_nil_r.
  - rewrite IH. split.
    + intros (s1 & s2 & -> & H & E). inversion H; subst.
      match goal with H' : Re.matches (Re.Lit _) _ |- _ => inversion H'; subst end.
      exists s0, (d :: s2). rewrite <- app_assoc. simpl.
      repeat split; [assumption|]. now f_equal.
    + intros (s1 & s2 & -> & H & E). destruct s2 as [|d s2]; [discriminate|].
      simpl in E. injection E as Ed E.
      exists (s1 ++ [d]), s2. rewrite <- app_assoc. simpl.
      repeat split; [|assumption]. constructor; [assumption|now constructor].
Qed.

Lemma prefixb_spec (p s : list ascii) :
  Text.prefixb p s = true <-> exists s2, s = p ++ s2.
Proof.
  revert s; induction p as [|a p IH]; intros s; simpl.
  - split; eauto.
  - destruct s as [|b s].
    + split; [discriminate|]. intros (s2 & E). discriminate.
    + rewrite andb_true_iff, IH. unfold Text.char_eqb. split.
      * intros (Hab & s2 & ->). apply Ascii.eqb_eq in Hab. subst. eauto.
      * intros (s2 & E). injection E as -> ->.
        rewrite Ascii.eqb_refl. eauto.
Qed.

Lemma substringb_spec (needle hay : list ascii) :
  Text.substringb needle hay = true <->
  exists h0 h2, hay = h0 ++ needle ++ h2.
Proof.
  induction hay as [|c hay IH].
  - change (Text.substringb needle [])
      with (Text.prefixb needle [] || false).
    rewrite orb_false_r, prefixb_spec. split.
    + intros (s2 & E). now exists [], s2.
    + intros (h0 & h2 & E). symmetry in E.
      apply app_eq_nil in E. destruct E as [-> E]. eauto.
  - change (Text.substringb needle (c :: hay))
      with (Text.prefixb needle (c :: hay) || Text.substringb needle hay).
    rewrite orb_true_iff, prefixb_spec, IH. split.
    + intros [(s2 & E)|(h0 & h2 & ->)].
      * now exists [], s2.
      * now exists (c :: h0), h2.
    + intros (h0 & h2 & E). destruct h0 as [|a h0]; simpl in E.
      * left. eauto.
      * right. injection E as <- ->. eauto.
Qed.

(** Searching for a literal is the substring test modulo case. *)
Lemma search_literal (cs t : list ascii) :
  Re.search (Re.literal Re.Eps cs) t =
  Text.substringb (map Text.lower_char cs) (map Text.lower_char t).
Proof.
  apply eq_true_iff_eq. rewrite search_spec, substringb_spec. split.
  - intros (s0 & s1 & s2 & -> & H).
    apply literal_spec in H. destruct H as (a & b & -> & Ha & E).
    inversion Ha; subst. simpl.
    exists (map Text.lower_char s0), (map Text.lower_char s2).
    now rewrite !map_app, E.
  - intros (h0 & h2 & E).
    apply map_eq_app in E. destruct E as (s0 & rest & -> & <- & E).
    apply map_eq_app in E. destruct E as (s1 & s2 & -> & E1 & <-).
    exists s0, s1, s2. split; [reflexivity|].
    apply literal_spec. exists [], s1. repeat split; [constructor|assumption].
Qed.

Lemma plain_tests (c : ascii) :
  plain c = true ->
  Ascii.eqb c "." = false /\ Ascii.eqb c "^" = false /\
  Ascii.eqb c "$" = false /\ Ascii.eqb c "*" = false /\
  Ascii.eqb c "+" = false /\ Ascii.eqb c "?" = false /\
  Ascii.eqb c "{" = false /\ Ascii.eqb c "}" = false /\
  Ascii.eqb c "[" = false /\ Ascii.eqb c "]" = false /\
  Ascii.eqb c "\" = false /\ Ascii.eqb c "|" = false /\
  Ascii.eqb c "(" = false /\ Ascii.eqb c ")" = false.
Proof.
  unfold plain, Re.special. rewrite negb_true_iff. simpl.
  rewrite !orb_false_iff. tauto.
Qed.

Lemma parse_repeat_plain (atom : Re.regex) (rest : list ascii) :
  forallb plain rest = true -> Re.parse_repeat atom rest = Re.POk atom rest.
Proof.
  destruct rest as [|c rest]; simpl; [reflexivity|].
  intros H. apply andb_true_iff in H. destruct H as [Hc _].
  destruct (plain_tests c Hc)
    as (_ & _ & _ & H1 & H2 & H3 & H4 & _).
  now rewrite H1, H2, H3, H4.
Qed.

Lemma parse_seq_plain (sub : list ascii -> Re.presult) (s : list ascii) :
  forallb plain s = true ->
  forall (n : nat) (acc : Re.regex),
    (List.length s < n)%nat ->
    Re.parse_seq sub n acc s = Re.POk (Re.literal acc s) [].
Proof.
  induction s as [|c s IH]; intros Hs n acc Hn.
  - destruct n; [inversion Hn|reflexivity].
  - destruct n as [|n]; [inversion Hn|].
    simpl in Hs. apply andb_true_iff in Hs. destruct Hs as [Hc Hs].
    destruct (plain_tests c Hc)
      as (T1 & T2 & T3 & T4 & T5 & T6 & T7 & T8 & T9 & T10 & T11 & T12 & T13 & T14).
    simpl. rewrite T1, T2, T3, T4, T5, T6, T7, T8, T9, T10, T11, T12, T13, T14.
    simpl. rewrite (parse_repeat_plain _ s Hs).
    apply IH; [assumption|]. simpl in Hn. lia.
Qed.

Lemma compile_plain (pat : string) :
  forallb plain (Text.chars pat) = true ->
  Re.compile pat = Re.Compiled (Re.literal Re.Eps (Text.chars pat)).
Proof.
  intros H. unfold Re.compile.
  change (Re.parse_alt (S (S (List.length (Text.chars pat)))) (Text.chars pat))
    with (match Re.parse_seq (Re.parse_alt (S (List.length (Text.chars pat))))
                  (S (List.length (Text.chars pat))) Re.Eps (Text.chars pat) with
          | Re.POk r ("|"%char :: rest) =>
              match Re.parse_alt (S (List.length (Text.chars pat))) rest with
              | Re.POk r' rest' => Re.POk (Re.Alt r r') rest'
              | e => e
              end
          | res => res
          end).
  rewrite (parse_seq_plain _ _ H) by lia. reflexivity.
Qed.

(** With a search text free of special characters the name filter keeps
    the rows whose name contains the text, case ignored; a row without a
    name is dropped. *)
Lemma name_filter_plain (f : filters) (df : frame) :
  name_search f <> EmptyString ->
  forallb plain (Text.chars (name_search f)) = true ->
  name_filter true f df =
  Ok (filter (fun x => match name (snd x) with
                       | Some n => Text.ci_contains n (name_search f)
                       | None => false
                       end) df).
Proof.
  intros Hne Hplain. unfold name_filter, str_contains.
  destruct (name_search f) as [|c pat] eqn:E; [now destruct Hne|].
  rewrite (compile_plain _ Hplain), map_map.
  rewrite (getitem_map (fun x => match name (snd x) with
                                 | Some s => Re.search
                                               (Re.literal Re.Eps (Text.chars (String c pat)))
                                               (Text.chars s)
                                 | None => false
                                 end)).
  f_equal. apply filter_ext. intros x.
  destruct (name (snd x)) as [nm|]; [|reflexivity].
  apply search_literal.
Qed.

(** The query returns whenever the search text is empty, or free of
    special characters on a Table whose names are text. *)
Lemma query_returns_on_plain_search (S : sorter) (df : frame) (f : filters)
    (sort_by : column) (sort_order : order) :
  forallb plain (Text.chars (name_search f)) = true ->
  name_search f = EmptyString \/ name_is_text df = true ->
  exists res, filter_and_sort_data S df f sort_by sort_order = Ok res.
Proof.
  intros Hplain Hcase. unfold filter_and_sort_data, apply_filters.
  set (filtered := attribute_filters f _).
  destruct (string_dec (name_search f) EmptyString) as [E|Hne].
  - unfold name_filter. rewrite E. eauto.
  - destruct Hcase as [E|Ht]; [contradiction|].
    rewrite Ht, (name_filter_plain f filtered Hne Hplain). eauto.
Qed.

(** [.str] on a Table none of whose names is present: the column is
    float64 and the accessor raises before the pattern is looked at. *)
Lemma search_without_any_name_raises (S : sorter) (sort_by : column)
    (sort_order : order) :
  filter_and_sort_data S
    (read_table [mkRacket None 8 (Some (100 # 1)) 5 6 7 8 9;
                 mkRacket None 6 None 6 6 5 7 9])
    (with_search "a" (scenario_filters sample_rows)) sort_by sort_order =
  Raised AttributeError.
Proof. reflexivity. Qed.

(** ** The filters *)

(** C3: with every range at the full observed bounds of its column,
    missing prices included and no search text, the filters return the
    whole Table, every record in its original place. *)
Theorem no_op_filters_identity (df : frame) (f : filters) :
  no_op_filters df f -> apply_filters df f = Ok df.
Proof.
  intros [Hov Hpr Hinc Hpo Hco Hre Hom Hsw Hs].
  apply apply_filters_keep_all; try (now apply full_bounds_cover); trivial.
  - apply range_filter_covering. now apply full_bounds_cover.
  - now apply price_filter_full_bounds.
Qed.

(** C4: under a price range whose ends differ, a record without a price
    passes exactly when missing prices are included, whatever the bounds,
    and a record with a price passes exactly when the price lies in the
    range. *)
Theorem price_predicate_nondegenerate (f : filters) (lo hi : Q) (df : frame) :
  price_range f = Some (lo, hi) -> ~ lo == hi ->
  forall x, In x (price_filter f df) <->
            In x df /\
            match price (snd x) with
            | None => include_no_price f = true
            | Some p => lo <= p <= hi
            end.
Proof.
  intros Hr Hne x. rewrite price_filter_spec, Hr.
  destruct (Qeq_bool lo hi) eqn:E.
  { apply Qeq_bool_iff in E. contradiction. }
  rewrite filter_In. unfold price_mask, price_between, isna.
  destruct (price (snd x)) as [p|]; simpl.
  - rewrite andb_false_r, orb_false_r, andb_true_iff, !Qle_bool_iff. tauto.
  - rewrite andb_true_r. tauto.
Qed.

(** C10: a supplied price range whose two ends are equal, with missing
    prices not included, removes the records without a price and nothing
    else, whatever the common value of the ends is. *)
Theorem price_predicate_degenerate (f : filters) (lo hi : Q) (df : frame) :
  price_range f = Some (lo, hi) -> lo == hi -> include_no_price f = false ->
  price_filter f df = filter (fun x => is_some (price (snd x))) df.
Proof.
  intros Hr He Hinc. rewrite price_filter_spec, Hr, Hinc.
  apply Qeq_bool_iff in He. now rewrite He.
Qed.

(** ** The sort *)

(** C5: in the result, whatever the sort column and direction, every
    record whose sort key is missing stands after every record whose sort
    key is present. *)
Theorem missing_keys_last (S : sorter) (df : frame) (f : filters)
    (sort_by : column) (sort_order : order) (res : frame) :
  filter_and_sort_data S df f sort_by sort_order = Ok res ->
  forall i j x y,
    nth_error res i = Some x -> nth_error res j = Some y ->
    missing sort_by (snd x) = true -> missing sort_by (snd y) = false ->
    (j < i)%nat.
Proof.
  unfold filter_and_sort_data.
  destruct (apply_filters df f) as [filtered| |]; try discriminate.
  intros [= <-].
  destruct (sort_values_spec S filtered sort_by (is_asc sort_order))
    as (P & -> & HP & _).
  apply app_positions with (p := fun x => missing sort_by (snd x)).
  - exact HP.
  - apply Forall_forall. intros x Hx. apply filter_In in Hx. apply Hx.
Qed.

(** C2, amended: the result is ordered by the sort key in the direction
    asked for, and two records whose sort key is missing keep the
    relative order they have in the Table.  Where two records with equal
    present keys end up is left to the sort numpy performs. *)
Theorem sorted_and_missing_in_table_order (S : sorter) (rows : list racket)
    (f : filters) (sort_by : column) (sort_order : order) (res : frame) :
  filter_and_sort_data S (read_table rows) f sort_by sort_order = Ok res ->
  forall i j x y,
    (i < j)%nat -> nth_error res i = Some x -> nth_error res j = Some y ->
    (missing sort_by (snd x) = false -> missing sort_by (snd y) = false ->
     ordered_by sort_by (is_asc sort_order) x y) /\
    (missing sort_by (snd x) = true -> missing sort_by (snd y) = true ->
     (fst x < fst y)%nat).
Proof.
  unfold filter_and_sort_data.
  destruct (apply_filters (read_table rows) f) as [filtered| |] eqn:Ef;
    try discriminate.
  intros [= <-] i j x y Hij Hi Hj.
  pose proof (selection_labels (apply_filters_selection _ _ Ef)
                (read_table_labels rows)) as Hlab.
  destruct (sort_values_spec S filtered sort_by (is_asc sort_order))
    as (P & E & HP & Hs).
  rewrite E in Hi, Hj.
  set (N := filter (fun x => missing sort_by (snd x)) filtered) in *.
  assert (HN : Forall (fun x => missing sort_by (snd x) = true) N).
  { apply Forall_forall. intros z Hz. apply filter_In in Hz. apply Hz. }
  rewrite Forall_forall in HP, HN.
  split; intros Mx My.
  - destruct (Nat.lt_ge_cases j (List.length P)) as [Hlt|Hge].
    + rewrite nth_error_app1 in Hi, Hj by lia.
      eapply (StronglySorted_nth Hs); [|exact Hi|exact Hj]. exact Hij.
    + rewrite nth_error_app2 in Hj by assumption.
      apply nth_error_In in Hj. rewrite (HN _ Hj) in My. discriminate.
  - destruct (Nat.lt_ge_cases i (List.length P)) as [Hlt|Hge].
    + rewrite nth_error_app1 in Hi by assumption.
      apply nth_error_In in Hi. rewrite (HP _ Hi) in Mx. discriminate.
    + rewrite nth_error_app2 in Hi, Hj by lia.
      assert (HsN : labels_increasing N) by now apply StronglySorted_filter.
      eapply (StronglySorted_nth HsN); [|exact Hi|exact Hj]. lia.
Qed.

(** ** The scenario *)

(** C1, amended: for the table A (overall 8, price 100), B (overall 6, no
    price), C (overall 8, price 50), the overall range [8, 8], missing
    prices included, no price range, the other ranges at their full
    bounds and no search text, sorted by price descending, the query
    returns A, C, B in that order: the two ends of the overall range are
    equal, so that range is not applied, and B, whose price is missing,
    comes last. *)
Theorem scenario_returns_A_C_B (S : sorter) (a b c : racket) :
  let rows := scenario_table a b c in
  filter_and_sort_data S (read_table rows) (scenario_filters rows) c_price desc =
  Ok [(0%nat, scenario_row "A" 8 (Some (100 # 1)) a);
      (2%nat, scenario_row "C" 8 (Some (50 # 1)) c);
      (1%nat, scenario_row "B" 6 None b)].
Proof. apply scenario_result. Qed.

(** C1 as stated fails: the result is not A, C alone. *)
Lemma scenario_not_only_A_C :
  filter_and_sort_data quicksort_sorter sample_table
    (scenario_filters sample_rows) c_price desc <>
  Ok [(0%nat, scenario_row "A" 8 (Some (100 # 1)) sample_a);
      (2%nat, scenario_row "C" 8 (Some (50 # 1)) sample_c)].
Proof.
  unfold sample_table, sample_rows.
  rewrite (scenario_result quicksort_sorter sample_a sample_b sample_c).
  discriminate.
Qed.

(** ** The name search *)

(** C6 fails on the code: the search text is compiled as a regular
    expression.  The text [.] keeps A, B and C, none of whose names
    contains a dot. *)
Theorem dot_search_keeps_names_without_dot :
  apply_filters sample_table (with_search "." (scenario_filters sample_rows)) =
    Ok sample_table /\
  Forall (fun x => exists n, name (snd x) = Some n /\
                             Text.ci_contains n "." = false) sample_table.
Proof.
  split; [reflexivity|].
  repeat constructor; eexists; split; reflexivity.
Qed.

(** C7 fails on the code: the search text [(] is not a valid regular
    expression and the query raises [re.error], whatever the sort. *)
Theorem open_paren_search_raises (S : sorter) (sort_by : column)
    (sort_order : order) :
  filter_and_sort_data S sample_table
    (with_search "(" (scenario_filters sample_rows)) sort_by sort_order =
  Raised re_error.
Proof. reflexivity. Qed.

(** ** The average price *)



(** ** The Table object *)

(** C9: a query leaves every object of the store as it was, the Table
    among them: same records, same order.  What it returns is the address
    of a new object, which holds the result of the query on the Table;
    when it raises, the store has only grown as well. *)
Theorem table_not_modified (S : sorter) (h : Store.heap) (df : Store.loc)
    (table : frame) (f : filters) (sort_by : column) (sort_order : order) :
  nth_error h df = Some table ->
  let (r, h') := Store.filter_and_sort_data S df f sort_by sort_order h in
  (forall l fr, nth_error h l = Some fr -> nth_error h' l = Some fr) /\
  match r with
  | Ok res =>
      (List.length h <= res)%nat /\
      exists fr, nth_error h' res = Some fr /\
                 filter_and_sort_data S table f sort_by sort_order = Ok fr
  | Raised e => filter_and_sort_data S table f sort_by sort_order = Raised e
  | Unmodelled => filter_and_sort_data S table f sort_by sort_order = Unmodelled
  end.
Proof.
  intros H.
  unfold Store.filter_and_sort_data, filter_and_sort_data, apply_filters,
    attribute_filters.
  unfold Store.bind at 1, Store.load at 1. rewrite H.
  unfold Store.bind at 1, Store.copy, Store.bind at 1, Store.load, Store.alloc.
  rewrite H.
  pose proof (nth_error_new h table) as P0.
  store_step (runs_to_range_filter overall (overall_range f)) P0 e1 l1 P1 F1.
  store_step (runs_to_price_filter f) P1 e2 l2 P2 F2.
  store_step (runs_to_attribute_filters f
                [(power, power_range); (control, control_range);
                 (rebound, rebound_range); (omgang, omgang_range);
                 (sweetspot, sweetspot_range)]) P2 e3 l3 P3 F3.
  rewrite !length_app in *. simpl List.length in *.
  assert (G3 : (List.length h <= l3)%nat) by lia.
  clear F1 F2 F3.
  set (h3 := (((h ++ [table]) ++ e1) ++ e2) ++ e3) in *.
  assert (X3 : forall l fr, nth_error h l = Some fr -> nth_error h3 l = Some fr).
  { intros l fr Hl. subst h3.
    rewrite <- !app_assoc. now apply nth_error_extend. }
  assert (L3 : (List.length h <= List.length h3)%nat).
  { subst h3. rewrite !length_app. lia. }
  set (filtered := fold_left _ _ _) in *.
  destruct (name_filter_m_spec (name_is_text table) f h3 l3 P3) as (e4 & E4 & R4).
  unfold Store.bind at 1.
  destruct (Store.name_filter_m (name_is_text table) f l3 h3) as [[l4|e|] h4];
    simpl in E4, R4; subst h4.
  - destruct R4 as (fr4 & N4 & P4 & F4). rewrite N4.
    pose proof (runs_to_sort S sort_by (is_asc sort_order)) as Hsort.
    destruct (Hsort (h3 ++ e4) l4 fr4 P4)
      as (e5 & l5 & E5 & P5 & F5).
    rewrite E5. split.
    + intros l fr Hl. now apply nth_error_extend, nth_error_extend, X3.
    + split.
      * rewrite length_app in F5. destruct F5 as [->|F5]; lia.
      * eauto.
  - rewrite R4. split; [|reflexivity].
    intros l fr Hl. now apply nth_error_extend, X3.
  - rewrite R4. split; [|reflexivity].
    intros l fr Hl. now apply nth_error_extend, X3.
Qed.

(** ** Ties *)

(** C2 as stated fails: sorted by overall rating, eighteen records with
    the same rating come back in the order 0, 15, 14, ..., 1, 16, 17 of
    their Table positions. *)
Lemma quicksort_swaps_equal_keys :
  exists res,
    filter_and_sort_data quicksort_sorter (read_table eighteen_rows)
      (scenario_filters eighteen_rows) c_overall asc = Ok res /\
    map fst res = [0; 15; 14; 13; 12; 11; 10; 9; 8; 7; 6; 5; 4; 3; 2; 1; 16; 17]%nat /\
    ~ stable_result c_overall res.
Proof.
  eexists. split; [vm_compute; reflexivity|]. split; [reflexivity|].
  intros Hst.
  specialize (Hst 1%nat 2%nat _ _ (Nat.lt_succ_diag_r 1) eq_refl eq_refl).
  simpl in Hst.
  assert (H : (15 < 14)%nat) by (apply Hst; repeat split).
  lia.
Qed.

(** ** Instances *)

Lemma no_op_filters_identity_witness :
  no_op_filters sample_table default_filters /\
  apply_filters sample_table default_filters = Ok sample_table.
Proof.
  assert (H : no_op_filters sample_table default_filters).
  { constructor; try reflexivity. split; reflexivity. }
  split; [exact H|].
  apply (@no_op_filters_identity sample_table default_filters H).
Defined.

Lemma price_predicate_nondegenerate_witness :
  (In (1%nat, scenario_row "B" 6 None sample_b)
      (price_filter price_60_100 sample_table) <->
   In (1%nat, scenario_row "B" 6 None sample_b) sample_table /\
   include_no_price price_60_100 = true) /\
  (In (2%nat, scenario_row "C" 8 (Some (50 # 1)) sample_c)
      (price_filter price_60_100 sample_table) <->
   In (2%nat, scenario_row "C" 8 (Some (50 # 1)) sample_c) sample_table /\
   60 # 1 <= 50 # 1 <= 100 # 1).
Proof.
  assert (Hne : ~ 60 # 1 == 100 # 1) by (unfold Qeq; simpl; discriminate).
  split.
  - exact (@price_predicate_nondegenerate price_60_100 (60 # 1) (100 # 1)
             sample_table eq_refl Hne
             (1%nat, scenario_row "B" 6 None sample_b)).
  - exact (@price_predicate_nondegenerate price_60_100 (60 # 1) (100 # 1)
             sample_table eq_refl Hne
             (2%nat, scenario_row "C" 8 (Some (50 # 1)) sample_c)).
Defined.

Lemma price_predicate_degenerate_witness :
  price_filter price_70_70_present sample_table =
  filter (fun x => is_some (price (snd x))) sample_table.
Proof.
  apply (@price_predicate_degenerate price_70_70_present (70 # 1) (70 # 1)
           sample_table).
  - reflexivity.
  - reflexivity.
  - reflexivity.
Defined.

Lemma missing_keys_last_witness : (0 < 2)%nat.
Proof.
  apply (@missing_keys_last stable_sorter sample_table
           (scenario_filters sample_rows) c_price desc
           [(0%nat, scenario_row "A" 8 (Some (100 # 1)) sample_a);
            (2%nat, scenario_row "C" 8 (Some (50 # 1)) sample_c);
            (1%nat, scenario_row "B" 6 None sample_b)]
           eq_refl 2%nat 0%nat
           (1%nat, scenario_row "B" 6 None sample_b)
           (0%nat, scenario_row "A" 8 (Some (100 # 1)) sample_a));
    reflexivity.
Defined.

Lemma sorted_and_missing_in_table_order_witness :
  ordered_by c_price false
    (0%nat, scenario_row "A" 8 (Some (100 # 1)) sample_a)
    (2%nat, scenario_row "C" 8 (Some (50 # 1)) sample_c).
Proof.
  refine (proj1 (@sorted_and_missing_in_table_order stable_sorter sample_rows
           (scenario_filters sample_rows) c_price desc
           [(0%nat, scenario_row "A" 8 (Some (100 # 1)) sample_a);
            (2%nat, scenario_row "C" 8 (Some (50 # 1)) sample_c);
            (1%nat, scenario_row "B" 6 None sample_b)]
           eq_refl 0%nat 1%nat _ _ _ eq_refl eq_refl) eq_refl eq_refl).
  lia.
Defined.


Lemma table_not_modified_witness :
  let (r, h') :=
    Store.filter_and_sort_data stable_sorter 0%nat default_filters c_price asc
      [sample_table] in
  (forall l fr, nth_error [sample_table] l = Some fr ->
                nth_error h' l = Some fr) /\
  match r with
  | Ok res =>
      (List.length [sample_table] <= res)%nat /\
      exists fr, nth_error h' res = Some fr /\
                 filter_and_sort_data stable_sorter sample_table
                   default_filters c_price asc = Ok fr
  | Raised e =>
      filter_and_sort_data stable_sorter sample_table default_filters
        c_price asc = Raised e
  | Unmodelled =>
      filter_and_sort_data stable_sorter sample_table default_filters
        c_price asc = Unmodelled
  end.
Proof.
  apply (@table_not_modified stable_sorter [sample_table] 0%nat sample_table
           default_filters c_price asc).
  reflexivity.
Defined.

(** ** The filters as one test per row *)

Lemma filter_filter_and {A} (p q : A -> bool) (l : list A) :
  filter q (filter p l) = filter (fun x => p x && q x) l.
Proof.
  induction l as [|x l IH]; simpl; [reflexivity|].
  destruct (p x); simpl; [|exact IH].
  destruct (q x); now rewrite IH.
Qed.

Lemma range_filter_as_filter attr rg (df : frame) :
  range_filter attr rg df = filter (fun x => range_ok rg (attr (snd x))) df.
Proof.
  rewrite range_filter_spec. unfold range_ok.
  destruct (fst rg =? snd rg)%Z; simpl; [|reflexivity].
  symmetry. apply filter_id. reflexivity.
Qed.

Lemma price_filter_as_filter f (df : frame) :
  price_filter f df = filter (fun x => price_ok f (price (snd x))) df.
Proof.
  rewrite price_filter_spec. unfold price_ok.
  destruct (price_range f) as [[lo hi]|].
  - destruct (Qeq_bool lo hi); [|reflexivity].
    destruct (include_no_price f); simpl; [|reflexivity].
    symmetry. apply filter_id. reflexivity.
  - destruct (include_no_price f); simpl; [|reflexivity].
    symmetry. apply filter_id. reflexivity.
Qed.

(** Lines 134-157: the seven range filters, one after the other, keep
    the rows that pass all seven tests. *)
Lemma range_filters_as_filter (f : filters) (df : frame) :
  attribute_filters f
    (price_filter f (range_filter overall (overall_range f) df)) =
  filter (fun x => row_passes f (snd x)) df.
Proof.
  unfold attribute_filters. simpl.
  rewrite !range_filter_as_filter, price_filter_as_filter.
  rewrite !filter_filter_and. apply filter_ext. intros x.
  unfold row_passes. now rewrite !andb_assoc.
Qed.

Lemma name_filter_outcome dtype f (df : frame) :
  name_filter dtype f df =
  match search_outcome dtype f with
  | Ok q => Ok (filter (fun x => q (name (snd x))) df)
  | Raised e => Raised e
  | Unmodelled => Unmodelled
  end.
Proof.
  unfold name_filter, search_outcome, str_contains.
  destruct (name_search f) as [|c pat].
  - f_equal. symmetry. apply filter_id. reflexivity.
  - destruct dtype; [|reflexivity].
    destruct (Re.compile (String c pat)); try reflexivity.
    rewrite map_map. f_equal.
    apply (getitem_map (fun x => match name (snd x) with
                                 | Some s => Re.search r (Text.chars s)
                                 | None => false
                                 end)).
Qed.

Lemma apply_filters_outcome (df : frame) (f : filters) :
  apply_filters df f =
  match search_outcome (name_is_text df) f with
  | Ok q => Ok (filter (fun x => row_passes f (snd x) && q (name (snd x))) df)
  | Raised e => Raised e
  | Unmodelled => Unmodelled
  end.
Proof.
  unfold apply_filters.
  rewrite name_filter_outcome, range_filters_as_filter.
  destruct (search_outcome (name_is_text df) f); try reflexivity.
  now rewrite filter_filter_and.
Qed.

Lemma search_outcome_plain (f : filters) :
  forallb plain (Text.chars (name_search f)) = true ->
  exists q, search_outcome true f = Ok q /\
            forall r, q (name r) = name_passes f r.
Proof.
  intros Hplain. unfold search_outcome, name_passes.
  destruct (name_search f) as [|c pat] eqn:E.
  - eexists. split; [reflexivity|reflexivity].
  - rewrite (compile_plain _ Hplain). eexists. split; [reflexivity|].
    intros r. destruct (name r) as [n|]; [|reflexivity].
    apply search_literal.
Qed.

Lemma take_nil (idx : list nat) : take [] idx = [].
Proof.
  unfold take. induction idx as [|i idx IH]; simpl; [reflexivity|].
  destruct i; exact IH.
Qed.

Lemma sort_values_perm (S : sorter) (df : frame) (by_ : column)
    (ascending : bool) :
  Permutation (sort_values S df by_ ascending) df.
Proof.
  unfold sort_values, sort_indexer, sort_by_rating.
  destruct by_; apply take_nargsort_perm.
Qed.

Lemma filter_nothing {A} (p : A -> bool) (l : list A) :
  (forall x, In x l -> p x = false) -> filter p l = [].
Proof.
  induction l as [|x l IH]; simpl; intros H; [reflexivity|].
  rewrite (H x (or_introl eq_refl)). apply IH. intros y Hy. apply H. now right.
Qed.

Lemma range_ok_inverted (rg : Z * Z) (v : Z) :
  inverted rg -> range_ok rg v = false.
Proof.
  unfold inverted, range_ok, between. intros H.
  destruct (Z.eqb_spec (fst rg) (snd rg)); [lia|]. simpl.
  destruct (Z.leb_spec (fst rg) v); simpl; [|reflexivity].
  apply Z.leb_gt. lia.
Qed.

Lemma read_table_rows (rows : list racket) (x : nat * racket) :
  In x (read_table rows) -> nth_error rows (fst x) = Some (snd x).
Proof.
  unfold read_table.
  assert (G : forall s, In x (combine (seq s (List.length rows)) rows) ->
              (s <= fst x)%nat /\ nth_error rows (fst x - s) = Some (snd x)).
  { induction rows as [|r rows IH]; intros s; simpl; [intros []|].
    intros [<-|Hin]; simpl.
    - rewrite Nat.sub_diag. auto.
    - destruct (IH _ Hin) as [Hle Hn]. split; [lia|].
      replace (fst x - s)%nat with (Datatypes.S (fst x - Datatypes.S s)) by lia.
      exact Hn. }
  intros Hin. destruct (G 0%nat Hin) as [_ Hn].
  now rewrite Nat.sub_0_r in Hn.
Qed.

Lemma labels_increasing_NoDup (df : frame) :
  labels_increasing df -> NoDup (map fst df).
Proof.
  induction 1 as [|x df Hs IH Hx]; simpl; constructor; [|assumption].
  intros Hin. apply in_map_iff in Hin. destruct Hin as (y & Ey & Hy).
  rewrite Forall_forall in Hx. specialize (Hx y Hy). lia.
Qed.

(** ** More on the query *)

(** X1: with a search text that is empty, or free of regular-expression
    special characters on a Table whose names are text, the filters keep
    exactly the rows that pass every range test, the price test and the
    case-insensitive name test, in the order of the Table. *)
Theorem filters_keep_rows_passing_every_test (df : frame) (f : filters) :
  forallb plain (Text.chars (name_search f)) = true ->
  name_search f = EmptyString \/ name_is_text df = true ->
  apply_filters df f =
  Ok (filter (fun x => row_passes f (snd x) && name_passes f (snd x)) df).
Proof.
  intros Hplain Hcase. rewrite apply_filters_outcome.
  destruct (string_dec (name_search f) EmptyString) as [E|Hne].
  - unfold search_outcome, name_passes. rewrite E. reflexivity.
  - destruct Hcase as [E|Ht]; [contradiction|]. rewrite Ht.
    destruct (search_outcome_plain f Hplain) as (q & -> & Hq).
    f_equal. apply filter_ext. intros x. now rewrite Hq.
Qed.

(** X2: the sort neither drops nor repeats a record: the result holds
    the rows the filters kept, each once, rearranged. *)
Theorem sorting_rearranges_the_filtered_rows (S : sorter) (df : frame)
    (f : filters) (sort_by : column) (sort_order : order) (res : frame) :
  filter_and_sort_data S df f sort_by sort_order = Ok res ->
  exists filtered,
    apply_filters df f = Ok filtered /\ Permutation res filtered.
Proof.
  unfold filter_and_sort_data.
  destruct (apply_filters df f) as [filtered| |]; try discriminate.
  intros [= <-]. exists filtered. split; [reflexivity|].
  apply sort_values_perm.
Qed.

(** X3: every record of the result is the Table record at the index it
    carries, no index occurs twice, and the result is no longer than the
    Table. *)
Theorem result_rows_are_table_rows (S : sorter) (rows : list racket)
    (f : filters) (sort_by : column) (sort_order : order) (res : frame) :
  filter_and_sort_data S (read_table rows) f sort_by sort_order = Ok res ->
  (forall x, In x res -> nth_error rows (fst x) = Some (snd x)) /\
  NoDup (map fst res) /\
  (List.length res <= List.length rows)%nat.
Proof.
  unfold filter_and_sort_data.
  destruct (apply_filters (read_table rows) f) as [filtered| |] eqn:Ef;
    try discriminate.
  intros [= <-].
  pose proof (sort_values_perm S filtered sort_by (is_asc sort_order)) as Hp.
  pose proof (apply_filters_selection _ _ Ef) as Hsel.
  pose proof (selection_labels Hsel (read_table_labels rows)) as Hlab.
  destruct Hsel as [p ->].
  repeat split.
  - intros x Hx. apply (Permutation_in _ Hp) in Hx.
    apply filter_In in Hx. apply read_table_rows, Hx.
  - apply (Permutation_NoDup (Permutation_map fst (Permutation_sym Hp))).
    now apply labels_increasing_NoDup.
  - rewrite (Permutation_length Hp).
    eapply Nat.le_trans; [apply filter_length_le|].
    unfold read_table. rewrite length_combine, length_seq. lia.
Qed.

(** X4: a rating range whose lower end is above its upper end is not an
    error: with no search text the query returns an empty result. *)
Theorem inverted_range_gives_empty_result (S : sorter) (df : frame)
    (f : filters) (sort_by : column) (sort_order : order) :
  name_search f = EmptyString ->
  inverted (overall_range f) \/ inverted (power_range f) \/
  inverted (control_range f) \/ inverted (rebound_range f) \/
  inverted (omgang_range f) \/ inverted (sweetspot_range f) ->
  filter_and_sort_data S df f sort_by sort_order = Ok [].
Proof.
  intros Hs Hinv. unfold filter_and_sort_data.
  rewrite apply_filters_outcome. unfold search_outcome. rewrite Hs.
  rewrite filter_nothing.
  - unfold sort_values. now rewrite take_nil.
  - intros x _. unfold row_passes.
    destruct Hinv as [H|[H|[H|[H|[H|H]]]]];
      rewrite (range_ok_inverted _ H); rewrite ?andb_false_r; reflexivity.
Qed.

(** X5: with all other settings the same, unticking "Include rackets
    without price" removes from the filtered rows exactly those without a
    price. *)
Theorem unticking_include_drops_the_unpriced (df : frame) (f : filters)
    (kept : frame) :
  apply_filters df (set_include true f) = Ok kept ->
  apply_filters df (set_include false f) =
  Ok (filter (fun x => is_some (price (snd x))) kept).
Proof.
  rewrite !apply_filters_outcome.
  change (search_outcome (name_is_text df) (set_include true f))
    with (search_outcome (name_is_text df) f).
  change (search_outcome (name_is_text df) (set_include false f))
    with (search_outcome (name_is_text df) f).
  destruct (search_outcome (name_is_text df) f) as [q| |]; try discriminate.
  intros [= <-]. f_equal. rewrite filter_filter_and.
  apply filter_ext. intros x.
  unfold row_passes, price_ok, price_mask, price_between, isna. simpl.
  destruct (price_range f) as [[lo hi]|];
    [destruct (Qeq_bool lo hi)|];
    destruct (price (snd x)); simpl;
    repeat match goal with
           | |- context [range_ok ?a ?b] => destruct (range_ok a b); simpl
           | |- context [Qle_bool ?a ?b] => destruct (Qle_bool a b); simpl
           | |- context [q ?a] => destruct (q a); simpl
           end; reflexivity.
Qed.

Lemma chars_nil (s : string) : Text.chars s = [] -> s = EmptyString.
Proof. destruct s; [reflexivity|discriminate]. Qed.

Lemma name_is_text_nameless (df : frame) :
  df <> [] -> (forall x, In x df -> name (snd x) = None) ->
  name_is_text df = false.
Proof.
  intros Hne Hnone. unfold name_is_text.
  destruct df as [|x df]; [now destruct Hne|].
  destruct (existsb _ _) eqn:E; [|reflexivity].
  apply existsb_exists in E. destruct E as (y & Hy & Hs).
  rewrite (Hnone y Hy) in Hs. discriminate.
Qed.

(** X6: the case of the search text does not matter: two search texts
    free of special characters that agree once lowered select the same
    rows, or fail alike. *)
Theorem search_ignores_case_of_the_text (df : frame) (f : filters)
    (p1 p2 : string) :
  forallb plain (Text.chars p1) = true ->
  forallb plain (Text.chars p2) = true ->
  Text.lower p1 = Text.lower p2 ->
  apply_filters df (with_search p1 f) = apply_filters df (with_search p2 f).
Proof.
  intros H1 H2 Hl. rewrite !apply_filters_outcome.
  assert (Hrow : forall r, row_passes (with_search p1 f) r =
                           row_passes (with_search p2 f) r) by reflexivity.
  destruct (name_is_text df).
  - destruct (search_outcome_plain (with_search p1 f) H1) as (q1 & -> & Hq1).
    destruct (search_outcome_plain (with_search p2 f) H2) as (q2 & -> & Hq2).
    f_equal. apply filter_ext. intros x.
    rewrite Hrow, Hq1, Hq2. f_equal.
    unfold name_passes. simpl.
    destruct p1 as [|c1 p1], p2 as [|c2 p2]; try reflexivity;
      try discriminate.
    destruct (name (snd x)); [|reflexivity].
    unfold Text.ci_contains. now rewrite Hl.
  - unfold search_outcome. simpl.
    destruct p1 as [|c1 p1], p2 as [|c2 p2]; try discriminate;
      reflexivity.
Qed.

(** X7: on a Table that has rows but no name at all, any search text
    makes the query raise AttributeError: the [name] column holds no
    string for [.str] to work on. *)
Theorem search_on_nameless_table_raises (S : sorter) (df : frame)
    (f : filters) (sort_by : column) (sort_order : order) :
  df <> [] -> (forall x, In x df -> name (snd x) = None) ->
  name_search f <> EmptyString ->
  filter_and_sort_data S df f sort_by sort_order = Raised AttributeError.
Proof.
  intros Hne Hnone Hs. unfold filter_and_sort_data.
  rewrite apply_filters_outcome, (name_is_text_nameless Hne Hnone).
  unfold search_outcome.
  destruct (name_search f); [now destruct Hs|reflexivity].
Qed.

(** X8: a search text that starts with a repetition sign ([*], [+] or
    [?]) is no regular expression: on a Table whose names are text the
    query raises [re.error], whatever follows the sign. *)
Theorem leading_repeat_sign_raises (S : sorter) (df : frame) (f : filters)
    (sort_by : column) (sort_order : order) (c : ascii) (rest : string) :
  name_search f = String c rest ->
  c = "*"%char \/ c = "+"%char \/ c = "?"%char ->
  name_is_text df = true ->
  filter_and_sort_data S df f sort_by sort_order = Raised re_error.
Proof.
  intros Hs Hc Ht. unfold filter_and_sort_data.
  rewrite apply_filters_outcome, Ht. unfold search_outcome. rewrite Hs.
  assert (E : Re.compile (String c rest) = Re.ReError).
  { destruct Hc as [-> | [-> | ->]]; reflexivity. }
  now rewrite E.
Qed.

(** X9: the two price counts of the summary add up to the number of
    rackets shown, and the count with a price is the number of prices the
    average is taken over. *)
Theorem price_counts_add_up (df : frame) :
  (rackets_with_price df + rackets_without_price df = shown_rackets df)%nat /\
  rackets_with_price df = List.length (present_prices df).
Proof.
  split; [apply price_counts_partition|].
  symmetry. apply present_prices_count.
Qed.

(** ** The card grid *)

Lemma firstn_plus {A} (a b : nat) (l : list A) :
  firstn (a + b) l = firstn a l ++ firstn b (skipn a l).
Proof.
  revert l; induction a as [|a IH]; intros l; simpl; [reflexivity|].
  destruct l as [|x l]; simpl.
  - now rewrite firstn_nil.
  - now rewrite IH.
Qed.

Lemma firstn_three {A} (l : list A) :
  firstn 3 l =
  opt_list (nth_error l 0) ++ opt_list (nth_error l 1) ++
  opt_list (nth_error l 2).
Proof. destruct l as [|a [|b [|c l]]]; reflexivity. Qed.

Lemma cell_spec (df : frame) (row col : nat) :
  (if (row * cols_per_row + col <? List.length df)%nat then
     match nth_error df (row * cols_per_row + col) with
     | Some racket => [(row, col, racket)]
     | None => []
     end
   else []) =
  map (fun r => (row, col, r)) (opt_list (nth_error df (row * cols_per_row + col))).
Proof.
  destruct (Nat.ltb_spec (row * cols_per_row + col) (List.length df)) as [H|H].
  - now destruct (nth_error df (row * cols_per_row + col)).
  - apply nth_error_None in H. now rewrite H.
Qed.

Lemma row_cards_records (df : frame) (row : nat) :
  map snd (row_cards df row) = firstn 3 (skipn (row * cols_per_row) df).
Proof.
  rewrite firstn_three, !nth_error_skipn.
  unfold row_cards. cbn [flat_map seq cols_per_row].
  change 3%nat with cols_per_row.
  rewrite !cell_spec, app_nil_r, !map_app, !map_map.
  cbn [snd]. rewrite !map_id. reflexivity.
Qed.

Lemma grid_cards_records (df : frame) (k : nat) :
  map snd (flat_map (row_cards df) (seq 0 k)) = firstn (k * cols_per_row) df.
Proof.
  induction k as [|k IH]; [reflexivity|].
  rewrite seq_S, flat_map_app, map_app, IH. simpl flat_map.
  rewrite app_nil_r, row_cards_records. simpl Nat.add.
  replace (Datatypes.S k * cols_per_row)%nat with (k * cols_per_row + 3)%nat
    by (unfold cols_per_row; lia).
  now rewrite firstn_plus.
Qed.

Lemma grid_rows_cover (n : nat) :
  (n <= grid_rows n * cols_per_row)%nat /\
  (forall row, (row < grid_rows n)%nat -> (row * cols_per_row < n)%nat).
Proof.
  unfold grid_rows, cols_per_row.
  pose proof (Nat.div_mod_eq (n + 3 - 1) 3) as E.
  pose proof (Nat.mod_upper_bound (n + 3 - 1) 3) as M.
  split; [lia|]. intros row Hrow. lia.
Qed.

(** X10: the grid shows every record of the result exactly once, in the
    order of the result, three to a row: the card in row [r], column [c]
    is record number [3 r + c], and no row of the grid is empty. *)
Theorem grid_shows_every_record_once (filtered_df : frame) :
  map snd (grid_cards filtered_df) = filtered_df /\
  (forall row col r, In (row, col, r) (grid_cards filtered_df) ->
     (col < 3)%nat /\ nth_error filtered_df (3 * row + col) = Some r) /\
  (forall row, (row < grid_rows (List.length filtered_df))%nat ->
     exists r, In (row, 0%nat, r) (grid_cards filtered_df)).
Proof.
  destruct (grid_rows_cover (List.length filtered_df)) as [Hcover Hrow].
  change (grid_cards filtered_df)
    with (flat_map (row_cards filtered_df)
            (seq 0 (grid_rows (List.length filtered_df)))).
  repeat split.
  - rewrite grid_cards_records. now apply firstn_all2.
  - apply in_flat_map in H. destruct H as (row' & _ & H).
    unfold row_cards in H. apply in_flat_map in H.
    destruct H as (col' & Hcol & H). rewrite cell_spec in H.
    apply in_map_iff in H. destruct H as (r' & [= -> -> ->] & _).
    apply in_seq in Hcol. unfold cols_per_row in Hcol. lia.
  - apply in_flat_map in H. destruct H as (row' & _ & H).
    unfold row_cards in H. apply in_flat_map in H.
    destruct H as (col' & _ & H). rewrite cell_spec in H.
    apply in_map_iff in H. destruct H as (r' & [= -> -> ->] & Hr).
    unfold opt_list in Hr.
    replace (3 * row + col)%nat with (row * cols_per_row + col)%nat
      by (unfold cols_per_row; lia).
    destruct (nth_error filtered_df (row * cols_per_row + col));
      [destruct Hr as [->|[]]; reflexivity|destruct Hr].
  - intros row Hr. specialize (Hrow row Hr).
    destruct (nth_error filtered_df (row * cols_per_row)) as [r|] eqn:E.
    + exists r. apply in_flat_map. exists row. split; [apply in_seq; lia|].
      unfold row_cards. apply in_flat_map. exists 0%nat.
      split; [now left|]. rewrite cell_spec, Nat.add_0_r, E. now left.
    + apply nth_error_None in E. lia.
Qed.

(** ** The widgets left untouched *)

Lemma int_of_float_Z (q : Q) (n : Z) : q == inject_Z n -> int_of_float q = n.
Proof.
  intros H. unfold int_of_float.
  assert (Hf : Qfloor q = n) by (rewrite H; apply Qfloor_Z).
  assert (Hc : Qceiling q = n) by (rewrite H; apply Qceiling_Z).
  now destruct (Qle_bool 0 q).
Qed.

Lemma fold_Qmin_in (ps : list Q) (p : Q) :
  exists q, In q (p :: ps) /\ fold_left Qmin ps p == q.
Proof.
  revert p; induction ps as [|u ps IH]; intros p; simpl.
  - exists p. split; [now left|reflexivity].
  - destruct (IH (Qmin p u)) as (q & [<-|Hq] & E).
    + destruct (Q.min_dec p u) as [H|H];
        pose proof (Qeq_trans _ _ _ E H) as E'.
      * exists p. auto.
      * exists u. auto.
    + exists q. auto.
Qed.

Lemma fold_Qmax_in (ps : list Q) (p : Q) :
  exists q, In q (p :: ps) /\ fold_left Qmax ps p == q.
Proof.
  revert p; induction ps as [|u ps IH]; intros p; simpl.
  - exists p. split; [now left|reflexivity].
  - destruct (IH (Qmax p u)) as (q & [<-|Hq] & E).
    + destruct (Q.max_dec p u) as [H|H];
        pose proof (Qeq_trans _ _ _ E H) as E'.
      * exists p. auto.
      * exists u. auto.
    + exists q. auto.
Qed.

Lemma rating_slider_bounds (vals : list Z) (rg : Z * Z) :
  rating_slider vals = Some rg -> at_full_bounds vals rg.
Proof.
  unfold rating_slider, slider, at_full_bounds.
  destruct (observed_bounds vals) as [b|]; [|discriminate].
  destruct (fst b <? snd b)%Z; [|discriminate]. now intros [= <-].
Qed.

Lemma price_slider_value (df : frame) (pr : option (Q * Q)) :
  price_slider df = Some pr -> pr = price_slider_default df.
Proof.
  unfold price_slider, price_slider_default.
  destruct (observed_price_bounds df) as [[lo hi]|].
  - destruct (slider _); [|discriminate]. now intros [= <-].
  - now intros [= <-].
Qed.

Lemma untouched_filters_inv (df : frame) (f : filters) :
  untouched_filters df = Some f ->
  exists ov po co re om sw,
    f = mkFilters EmptyString ov (price_slider_default df) true
          po co re om sw /\
    at_full_bounds (map (fun x => overall (snd x)) df) ov /\
    at_full_bounds (map (fun x => power (snd x)) df) po /\
    at_full_bounds (map (fun x => control (snd x)) df) co /\
    at_full_bounds (map (fun x => rebound (snd x)) df) re /\
    at_full_bounds (map (fun x => omgang (snd x)) df) om /\
    at_full_bounds (map (fun x => sweetspot (snd x)) df) sw.
Proof.
  unfold untouched_filters.
  destruct (rating_slider (map (fun x => overall (snd x)) df)) as [ov|] eqn:Eov;
    [|discriminate].
  destruct (price_slider df) as [pr|] eqn:Epr; [|discriminate].
  destruct (rating_slider (map (fun x => power (snd x)) df)) as [po|] eqn:Epo;
    [|discriminate].
  destruct (rating_slider (map (fun x => control (snd x)) df)) as [co|] eqn:Eco;
    [|discriminate].
  destruct (rating_slider (map (fun x => rebound (snd x)) df)) as [re|] eqn:Ere;
    [|discriminate].
  destruct (rating_slider (map (fun x => omgang (snd x)) df)) as [om|] eqn:Eom;
    [|discriminate].
  destruct (rating_slider (map (fun x => sweetspot (snd x)) df)) as [sw|] eqn:Esw;
    [|discriminate].
  intros [= <-]. exists ov, po, co, re, om, sw.
  rewrite (price_slider_value df Epr).
  repeat split; now apply rating_slider_bounds.
Qed.

Lemma untouched_ranges_keep_all (df : frame) (f : filters) :
  untouched_filters df = Some f ->
  name_search f = EmptyString /\ include_no_price f = true /\
  price_range f = price_slider_default df /\
  range_filter overall (overall_range f) df = df /\
  (forall x, In x df -> (fst (power_range f) <= power (snd x) <= snd (power_range f))%Z) /\
  (forall x, In x df -> (fst (control_range f) <= control (snd x) <= snd (control_range f))%Z) /\
  (forall x, In x df -> (fst (rebound_range f) <= rebound (snd x) <= snd (rebound_range f))%Z) /\
  (forall x, In x df -> (fst (omgang_range f) <= omgang (snd x) <= snd (omgang_range f))%Z) /\
  (forall x, In x df -> (fst (sweetspot_range f) <= sweetspot (snd x) <= snd (sweetspot_range f))%Z).
Proof.
  intros Hf.
  destruct (untouched_filters_inv df Hf)
    as (ov & po & co & re & om & sw & -> & Hov & Hpo & Hco & Hre & Hom & Hsw).
  simpl.
  do 3 (split; [reflexivity|]).
  split; [apply range_filter_covering; now apply full_bounds_cover|].
  do 4 (split; [now apply full_bounds_cover|]).
  now apply full_bounds_cover.
Qed.

Lemma whole_prices_full_bounds (df : frame) :
  whole_prices df -> price_at_full_bounds df (price_slider_default df).
Proof.
  intros Hw. unfold price_at_full_bounds, price_slider_default,
    observed_price_bounds, whole_prices in *.
  destruct (present_prices df) as [|p0 ps]; [exact I|].
  destruct (fold_Qmin_in ps p0) as (a & Ha & Ea).
  destruct (fold_Qmax_in ps p0) as (b & Hb & Eb).
  destruct (Hw a Ha) as (n & Hn). destruct (Hw b Hb) as (m & Hm).
  pose proof (Qeq_trans _ _ _ Ea Hn) as En.
  pose proof (Qeq_trans _ _ _ Eb Hm) as Em.
  rewrite (int_of_float_Z En), (int_of_float_Z Em).
  split; symmetry; assumption.
Qed.

(** X11: when nothing has been touched, every slider has room between
    its ends and every price is a whole number, the page shows the whole
    Table, sorted by overall rating, highest first. *)
Theorem untouched_view_shows_whole_table (S : sorter) (df : frame)
    (f : filters) :
  untouched_filters df = Some f -> sliders_have_room f -> whole_prices df ->
  untouched_view S df = Some (Ok (sort_values S df c_overall false)).
Proof.
  intros Ef _ Hw. unfold untouched_view. rewrite Ef.
  destruct (untouched_ranges_keep_all df Ef)
    as (Hs & Hinc & Hpr & Hov & Hpo & Hco & Hre & Hom & Hsw).
  unfold filter_and_sort_data.
  rewrite (@apply_filters_keep_all df f); auto.
  apply price_filter_full_bounds; [|assumption].
  rewrite Hpr. now apply whole_prices_full_bounds.
Qed.

(** X12: the price slider starts at the bounds cut down to integers.
    When the highest price is not a whole number, the untouched page
    (every slider with room between its ends) shows no racket at that
    price: every price shown is below it. *)
Theorem untouched_view_hides_fractional_top_price (S : sorter) (df : frame)
    (f : filters) (pmin pmax : Q) :
  untouched_filters df = Some f -> sliders_have_room f ->
  observed_price_bounds df = Some (pmin, pmax) ->
  0 <= pmax ->
  ~ pmax == inject_Z (int_of_float pmax) ->
  exists res,
    untouched_view S df = Some (Ok res) /\
    forall x p, In x res -> price (snd x) = Some p -> p < pmax.
Proof.
  intros Ef Hroom Hob Hpos Hfrac.
  destruct (untouched_ranges_keep_all df Ef) as (Hs & _ & Hpr & _).
  destruct Hroom as (_ & _ & _ & _ & _ & _ & Hroom).
  unfold untouched_view. rewrite Ef. unfold filter_and_sort_data.
  rewrite apply_filters_outcome. unfold search_outcome. rewrite Hs.
  eexists. split; [reflexivity|].
  intros x p Hx Hp.
  apply (Permutation_in _ (sort_values_perm S _ c_overall false)) in Hx.
  apply filter_In in Hx. destruct Hx as [_ Hx].
  rewrite andb_true_r in Hx. unfold row_passes in Hx.
  rewrite !andb_true_iff in Hx.
  destruct Hx as ((((((_ & Hpk) & _) & _) & _) & _) & _).
  unfold price_ok in Hpk. rewrite Hpr in Hpk, Hroom.
  unfold price_slider_default in Hpk, Hroom. rewrite Hob in Hpk, Hroom.
  rewrite Hp in Hpk.
  destruct (Qeq_bool (inject_Z (int_of_float pmin))
                     (inject_Z (int_of_float pmax))) eqn:E.
  { apply Qeq_bool_eq in E. rewrite E in Hroom.
    exfalso. exact (Qlt_irrefl _ Hroom). }
  unfold price_mask, price_between, isna in Hpk. simpl in Hpk.
  rewrite andb_false_r, orb_false_r, andb_true_iff, !Qle_bool_iff in Hpk.
  destruct Hpk as [_ Hle].
  eapply Qle_lt_trans; [exact Hle|].
  assert (Hfl : int_of_float pmax = Qfloor pmax).
  { unfold int_of_float. apply Qle_bool_iff in Hpos. now rewrite Hpos. }
  rewrite Hfl in *.
  destruct (Qlt_le_dec (inject_Z (Qfloor pmax)) pmax) as [Hlt|Hge];
    [exact Hlt|].
  exfalso. apply Hfrac. apply Qle_antisym; [exact Hge|apply Qfloor_le].
Qed.

(** ** Two more edges of the filters *)

(** X13: a price range whose lower end is above its upper end is not an
    error either: no price lies in it, so the price filter keeps the
    records without a price when those are included, and nothing
    otherwise. *)
Theorem inverted_price_range_keeps_only_unpriced (f : filters) (lo hi : Q)
    (df : frame) :
  price_range f = Some (lo, hi) -> hi < lo ->
  price_filter f df =
  filter (fun x => include_no_price f && isna (price (snd x))) df.
Proof.
  intros Hr Hlt. rewrite price_filter_spec, Hr.
  destruct (Qeq_bool lo hi) eqn:E.
  { apply Qeq_bool_eq in E. rewrite E in Hlt.
    exfalso. exact (Qlt_irrefl _ Hlt). }
  apply filter_ext. intros x. unfold price_mask, price_between.
  destruct (price (snd x)) as [p|]; [|reflexivity].
  destruct (Qle_bool lo p) eqn:E1; [|reflexivity].
  destruct (Qle_bool p hi) eqn:E2; [|reflexivity].
  apply Qle_bool_iff in E1. apply Qle_bool_iff in E2.
  exfalso. apply (Qlt_not_le _ _ Hlt). eapply Qle_trans; eauto.
Qed.


(** ** Instances of the properties above *)

Lemma filters_keep_rows_passing_every_test_witness :
  apply_filters sample_table named_search =
  Ok (filter (fun x => row_passes named_search (snd x) &&
                       name_passes named_search (snd x)) sample_table).
Proof.
  apply (@filters_keep_rows_passing_every_test sample_table named_search).
  - reflexivity.
  - right. reflexivity.
Defined.

Lemma sorting_rearranges_the_filtered_rows_witness :
  exists filtered,
    apply_filters sample_table (scenario_filters sample_rows) = Ok filtered /\
    Permutation scenario_result_rows filtered.
Proof.
  apply (@sorting_rearranges_the_filtered_rows stable_sorter sample_table
           (scenario_filters sample_rows) c_price desc scenario_result_rows).
  reflexivity.
Defined.

Lemma result_rows_are_table_rows_witness :
  (forall x, In x scenario_result_rows ->
             nth_error sample_rows (fst x) = Some (snd x)) /\
  NoDup (map fst scenario_result_rows) /\
  (List.length scenario_result_rows <= List.length sample_rows)%nat.
Proof.
  apply (@result_rows_are_table_rows stable_sorter sample_rows
           (scenario_filters sample_rows) c_price desc scenario_result_rows).
  reflexivity.
Defined.

Lemma inverted_range_gives_empty_result_witness :
  filter_and_sort_data stable_sorter sample_table inverted_overall
    c_price asc = Ok [].
Proof.
  apply (@inverted_range_gives_empty_result stable_sorter sample_table
           inverted_overall c_price asc).
  - reflexivity.
  - left. unfold inverted. simpl. lia.
Defined.

Lemma unticking_include_drops_the_unpriced_witness :
  apply_filters sample_table
    (set_include false (scenario_filters sample_rows)) =
  Ok (filter (fun x => is_some (price (snd x))) sample_table).
Proof.
  apply (@unticking_include_drops_the_unpriced sample_table
           (scenario_filters sample_rows) sample_table).
  reflexivity.
Defined.

Lemma search_ignores_case_of_the_text_witness :
  apply_filters sample_table (with_search "A" (scenario_filters sample_rows)) =
  apply_filters sample_table (with_search "a" (scenario_filters sample_rows)).
Proof.
  apply (@search_ignores_case_of_the_text sample_table
           (scenario_filters sample_rows) "A" "a"); reflexivity.
Defined.

Lemma search_on_nameless_table_raises_witness :
  filter_and_sort_data stable_sorter nameless_table named_search
    c_overall desc = Raised AttributeError.
Proof.
  apply (@search_on_nameless_table_raises stable_sorter nameless_table
           named_search c_overall desc).
  - discriminate.
  - intros x [<-|[<-|[]]]; reflexivity.
  - discriminate.
Defined.

Lemma leading_repeat_sign_raises_witness :
  filter_and_sort_data stable_sorter sample_table
    (with_search "+a" (scenario_filters sample_rows)) c_overall desc =
  Raised re_error.
Proof.
  apply (@leading_repeat_sign_raises stable_sorter sample_table
           (with_search "+a" (scenario_filters sample_rows)) c_overall desc
           "+"%char "a").
  - reflexivity.
  - right. left. reflexivity.
  - reflexivity.
Defined.

Lemma untouched_view_shows_whole_table_witness :
  untouched_view stable_sorter sample_table =
  Some (Ok (sort_values stable_sorter sample_table c_overall false)).
Proof.
  apply (@untouched_view_shows_whole_table stable_sorter sample_table
           sample_untouched).
  - reflexivity.
  - unfold sliders_have_room, has_room, Qlt. simpl. lia.
  - intros p [<-|[<-|[]]]; [exists 100%Z|exists 50%Z]; reflexivity.
Defined.

Lemma untouched_view_hides_fractional_top_price_witness :
  exists res,
    untouched_view stable_sorter fractional_table = Some (Ok res) /\
    forall x p, In x res -> price (snd x) = Some p -> p < 3999 # 20.
Proof.
  apply (@untouched_view_hides_fractional_top_price stable_sorter
           fractional_table fractional_untouched (50 # 1) (3999 # 20)).
  - reflexivity.
  - unfold sliders_have_room, has_room, Qlt. simpl. lia.
  - reflexivity.
  - unfold Qle. simpl. lia.
  - unfold Qeq. vm_compute. discriminate.
Defined.

Lemma inverted_price_range_keeps_only_unpriced_witness :
  price_filter inverted_price sample_table =
  filter (fun x => include_no_price inverted_price && isna (price (snd x)))
    sample_table.
Proof.
  apply (@inverted_price_range_keeps_only_unpriced inverted_price
           (100 # 1) (50 # 1) sample_table).
  - reflexivity.
  - unfold Qlt. simpl. lia.
Defined.

